(** * protoprofile: the pprof profile assembler of [src/tools/protoprofile/main.cc]

    A shallow embedding of [PprofProfileComputer] (its two interning tables
    and [Compute]) together with the properties of the profile it builds.

    Conventions of the embedding:
    - C++ [int] is a 32-bit two's complement integer, [size_t] and
      [uint64_t] are 64-bit unsigned, [int64_t] is 64-bit two's complement.
      All of them are carried as [Z]; every conversion and every arithmetic
      operation of the source is written with its wrap-around.
    - [std::vector] is a [list]; [operator[]] outside the bounds is undefined
      behaviour and is reported as the outcome [Undefined].
    - [base::FlatHashMap<std::string, int>] is a [gmap string Z]. The order in
      which [GetIterator] walks a hash map is not fixed by its interface, so
      it is a parameter [GetIterator] of the development, only known to
      enumerate the entries of the map.
    - [trace_processor::util::SizeProfileComputer] is not part of this
      program: the mapping it returns is the argument
      [field_path_to_samples] of [Compute], given as the entries of the map
      in the order in which its iterator visits them.
    - [Compute] returns the assembled [Profile] message, not its protozero
      byte encoding. *)

From stdpp Require Import base numbers list strings gmap sorting.

Local Open Scope Z_scope.

(** ** Machine integers *)

Module MachineInt.

Definition wrap_unsigned (w z : Z) : Z := z mod 2 ^ w.

Definition wrap_signed (w z : Z) : Z :=
  (z + 2 ^ (w - 1)) mod 2 ^ w - 2 ^ (w - 1).

(** [static_cast<int>(z)] *)
Definition static_cast_int (z : Z) : Z := wrap_signed 32 z.

(** [static_cast<int64_t>(z)] *)
Definition static_cast_int64 (z : Z) : Z := wrap_signed 64 z.

(** [static_cast<uint64_t>(z)] *)
Definition static_cast_uint64 (z : Z) : Z := wrap_unsigned 64 z.

(** [a + b] and [a - b] on [size_t] *)
Definition size_t_add (a b : Z) : Z := wrap_unsigned 64 (a + b).
Definition size_t_sub (a b : Z) : Z := wrap_unsigned 64 (a - b).

(** [a + b] on [int], as two's complement hardware computes it *)
Definition int_add (a b : Z) : Z := wrap_signed 32 (a + b).

Definition INT_MAX : Z := 2 ^ 31 - 1.
Definition INT64_MAX : Z := 2 ^ 63 - 1.

End MachineInt.

Import MachineInt.

(** ** Outcomes of a run *)

(** [Fatal] is a failed [PERFETTO_CHECK] (the process aborts); [Undefined] is
    an access whose behaviour the language leaves undefined. *)
Inductive outcome (A : Type) : Type :=
  | Ok (a : A)
  | Fatal
  | Undefined.

Arguments Ok {A} a.
Arguments Fatal {A}.
Arguments Undefined {A}.

Definition obind {A B : Type} (o : outcome A) (k : A → outcome B) : outcome B :=
  match o with
  | Ok a => k a
  | Fatal => Fatal
  | Undefined => Undefined
  end.

Notation "'do' x ← o ; k" := (obind o (λ x, k))
  (at level 10, x pattern, o at level 100, k at level 200).

(** [PERFETTO_CHECK(b)] *)
Definition PERFETTO_CHECK (b : bool) : outcome unit :=
  if b then Ok tt else Fatal.

(** [v[i]] for a [std::vector<size_t>] and an index of type [size_t] *)
Definition vector_at (v : list Z) (i : Z) : outcome Z :=
  if decide (i < Z.of_nat (length v)) then
    match v !! Z.to_nat i with
    | Some x => Ok x
    | None => Undefined
    end
  else Undefined.

(** [std::sort(v.begin(), v.end())] on [size_t] values: the ascending
    rearrangement of [v]. *)
Definition std_sort (v : list Z) : list Z := merge_sort Z.le v.

(** ** The profile message *)

Record ValueType := { vt_type : Z; vt_unit : Z }.
Record Sample := { location_id : list Z; value : list Z }.
Record Line := { function_id : Z }.
Record Location := { loc_id : Z; line : list Line }.
Record Function := { fn_id : Z; fn_name : Z }.

Record Profile := {
  sample_type : list ValueType;
  sample : list Sample;
  location : list Location;
  function : list Function;
  string_table : list string;
}.

(** ** PprofProfileComputer *)

Definition FieldPath : Type := list string.

Record PprofProfileComputer := {
  strings_ : list string;
  string_to_id_ : gmap string Z;
  locations_ : gmap string Z;
}.

(** A default-constructed computer, as [Main] creates it. *)
Definition new_computer : PprofProfileComputer :=
  {| strings_ := []; string_to_id_ := ∅; locations_ := ∅ |}.

Definition InternString (s : string) (c : PprofProfileComputer)
  : Z * PprofProfileComputer :=
  match string_to_id_ c !! s with
  | Some val => (val, c)
  | None =>
      let strings' := strings_ c ++ [s] in
      let id := static_cast_int (size_t_sub (Z.of_nat (length strings')) 1) in
      (id, {| strings_ := strings';
              string_to_id_ := <[s := id]> (string_to_id_ c);
              locations_ := locations_ c |})
  end.

Definition InternLocation (s : string) (c : PprofProfileComputer)
  : Z * PprofProfileComputer :=
  match locations_ c !! s with
  | Some val => (val, c)
  | None =>
      let id := int_add (static_cast_int (Z.of_nat (size (locations_ c)))) 1 in
      (id, {| strings_ := strings_ c;
              string_to_id_ := string_to_id_ c;
              locations_ := <[s := id]> (locations_ c) |})
  end.

(** A run of consecutive calls, collecting the returned ids. *)
Fixpoint InternStrings (l : list string) (c : PprofProfileComputer)
  : list Z * PprofProfileComputer :=
  match l with
  | [] => ([], c)
  | s :: r =>
      let '(id, c1) := InternString s c in
      let '(ids, c2) := InternStrings r c1 in
      (id :: ids, c2)
  end.

Fixpoint InternLocations (l : list string) (c : PprofProfileComputer)
  : list Z * PprofProfileComputer :=
  match l with
  | [] => ([], c)
  | s :: r =>
      let '(id, c1) := InternLocation s c in
      let '(ids, c2) := InternLocations r c1 in
      (id :: ids, c2)
  end.

(** The five [add_sample_type] blocks at the head of [Compute]. *)
Definition add_sample_type (type unit_ : string) (c : PprofProfileComputer)
  : ValueType * PprofProfileComputer :=
  let '(t, c1) := InternString type c in
  let '(u, c2) := InternString unit_ c1 in
  ({| vt_type := t; vt_unit := u |}, c2).

Definition sample_type_decls : list (string * string) :=
  [("protos", "count"); ("max_size", "bytes"); ("min_size", "bytes");
   ("median", "bytes"); ("total_size", "bytes")]%string.

Fixpoint add_sample_types (decls : list (string * string))
    (c : PprofProfileComputer) : list ValueType * PprofProfileComputer :=
  match decls with
  | [] => ([], c)
  | (t, u) :: r =>
      let '(vt, c1) := add_sample_type t u c in
      let '(vts, c2) := add_sample_types r c1 in
      (vt :: vts, c2)
  end.

(** The statistics of one entry, read from the vector after it was sorted. *)
Definition sample_values (samples : list Z) : outcome (list Z) :=
  let count := Z.of_nat (length samples) in
  do max_size ← vector_at samples (size_t_sub count 1);
  do min_size ← vector_at samples 0;
  do median_size ← vector_at samples (count / 2);
  let total_size := foldl size_t_add 0 samples in
  Ok [static_cast_int64 count; static_cast_int64 max_size;
      static_cast_int64 min_size; static_cast_int64 median_size;
      static_cast_int64 total_size].

(** One iteration of the loop over [field_path_to_samples]: the sample that
    is emitted, the vector as the iteration leaves it in the map, and the
    computer. *)
Definition emit_sample (field_path : FieldPath) (samples : list Z)
    (c : PprofProfileComputer)
  : outcome (Sample * list Z * PprofProfileComputer) :=
  let '(location_ids, c1) := InternLocations (reverse field_path) c in
  let samples' := std_sort samples in
  do values ← sample_values samples';
  Ok ({| location_id := location_ids; value := values |}, samples', c1).

Fixpoint sample_loop (entries : list (FieldPath * list Z))
    (c : PprofProfileComputer)
  : outcome (list Sample * list (FieldPath * list Z) * PprofProfileComputer) :=
  match entries with
  | [] => Ok ([], [], c)
  | (field_path, samples) :: rest =>
      do (s, samples', c1) ← emit_sample field_path samples c;
      do (ss, rest', c2) ← sample_loop rest c1;
      Ok (s :: ss, (field_path, samples') :: rest', c2)
  end.

(** The loop over [locations_]: one location and one function per entry. *)
Fixpoint location_loop (its : list (string * Z)) (c : PprofProfileComputer)
  : list Location * list Function * PprofProfileComputer :=
  match its with
  | [] => ([], [], c)
  | (key, val) :: rest =>
      let loc := {| loc_id := static_cast_uint64 val;
                    line := [ {| function_id := static_cast_uint64 val |} ] |} in
      let '(name, c1) := InternString key c in
      let fn := {| fn_id := static_cast_uint64 val; fn_name := name |} in
      let '(locs, fns, c2) := location_loop rest c1 in
      (loc :: locs, fn :: fns, c2)
  end.

Section Compute.

(** The order in which a [FlatHashMap] iterator visits the entries. *)
Variable GetIterator : gmap string Z → list (string * Z).
Hypothesis GetIterator_entries : ∀ m, GetIterator m ≡ₚ map_to_list m.

Definition Compute (field_path_to_samples : list (FieldPath * list Z))
    (c : PprofProfileComputer)
  : outcome (Profile * list (FieldPath * list Z) * PprofProfileComputer) :=
  let '(id0, c0) := InternString "" c in
  do _ ← PERFETTO_CHECK (bool_decide (id0 = 0));
  let '(sample_types, c1) := add_sample_types sample_type_decls c0 in
  do (samples, field_path_to_samples', c2) ←
    sample_loop field_path_to_samples c1;
  let '(locations, functions, c3) :=
    location_loop (GetIterator (locations_ c2)) c2 in
  Ok ({| sample_type := sample_types;
         sample := samples;
         location := locations;
         function := functions;
         string_table := strings_ c3 |},
      field_path_to_samples', c3).

End Compute.


(** ** Specification-side notions *)

(** The texts of a sequence of intern calls in the order in which each was
    seen for the first time, continuing a table [acc]. *)
Definition first_seen_step (acc : list string) (s : string) : list string :=
  if decide (s ∈ acc) then acc else acc ++ [s].

Definition first_seen (acc : list string) (l : list string) : list string :=
  foldl first_seen_step acc l.

(** Statistics of a non-empty list of sizes, independent of any sorting. *)
Definition max_list (l : list Z) : Z :=
  match l with
  | [] => 0
  | x :: r => foldr Z.max x r
  end.

Definition min_list (l : list Z) : Z :=
  match l with
  | [] => 0
  | x :: r => foldr Z.min x r
  end.

Definition sum_list (l : list Z) : Z := foldr Z.add 0 l.

(** Sizes that the five [int64_t] values can carry without wrapping. *)
Definition fits_int64 (sizes : list Z) : Prop :=
  Forall (λ x, 0 ≤ x) sizes ∧
  Z.of_nat (length sizes) ≤ INT64_MAX ∧
  sum_list sizes ≤ INT64_MAX.

(** Every text handed to [InternString] by the head of [Compute], in call
    order. *)
Definition prologue_texts : list string :=
  ("" :: concat (map (λ d, [d.1; d.2]) sample_type_decls))%string.

(** ** Invariants of the two interning tables *)

(** The lookup table knows exactly the texts stored in the vector, each
    stored once. *)
Definition strings_dom (c : PprofProfileComputer) : Prop :=
  NoDup (strings_ c) ∧
  ∀ s, is_Some (string_to_id_ c !! s) ↔ s ∈ strings_ c.

(** The lookup table maps a text to its position in the vector. *)
Definition strings_inv (c : PprofProfileComputer) : Prop :=
  NoDup (strings_ c) ∧
  ∀ s i, string_to_id_ c !! s = Some i ↔
         0 ≤ i ∧ strings_ c !! Z.to_nat i = Some s.

(** [seen] lists the field names of [locations_] in the order in which they
    were interned: the name at (0-based) position [k] has id [k + 1]. *)
Definition locations_inv (seen : list string) (c : PprofProfileComputer)
  : Prop :=
  NoDup seen ∧
  size (locations_ c) = length seen ∧
  ∀ s i, locations_ c !! s = Some i ↔
         1 ≤ i ∧ seen !! Z.to_nat (i - 1) = Some s.

(** The id a field name has in a location table (0 if it has none). *)
Definition location_of (c : PprofProfileComputer) (name : string) : Z :=
  default 0 (locations_ c !! name).

(** The computer after the head of [Compute] ran on a new one. *)
Definition after_prologue : PprofProfileComputer :=
  (InternStrings prologue_texts new_computer).2.

(** The field names interned by the loop over the entries, in call order. *)
Definition interned_names (entries : list (FieldPath * list Z)) : list string :=
  concat (map (λ e, reverse e.1) entries).

(** The records built for one entry of [locations_]. *)
Definition location_record (kv : string * Z) : Location :=
  {| loc_id := static_cast_uint64 kv.2;
     line := [ {| function_id := static_cast_uint64 kv.2 |} ] |}.

Definition function_record (kv : string * Z) (name : Z) : Function :=
  {| fn_id := static_cast_uint64 kv.2; fn_name := name |}.

(** Side conditions on concrete sample sets. *)
Ltac solve_fits :=
  repeat first
    [ progress (simpl; unfold fits_int64, sum_list, INT64_MAX, INT_MAX)
    | split | constructor | done | lia ].

(** [seen] lists the field names of [locations_], each once, in the order
    in which they were interned. *)
Definition locations_dom (seen : list string) (c : PprofProfileComputer)
  : Prop :=
  NoDup seen ∧
  size (locations_ c) = length seen ∧
  ∀ s, is_Some (locations_ c !! s) ↔ s ∈ seen.

(** ** The driver: [PrintUsage] and [Main]

    [Main] works through collaborators that are not part of this program:
    the file functions of [base], the protobuf [Importer], the walker
    [SizeProfileComputer] and the protozero serializer. They are parameters
    of the section. A pointer that may be null is an [option]; reading
    through a null pointer is undefined behaviour. *)

(** The two ways in which [Main] opens a file. *)
Inductive OpenFlags : Type :=
  | O_RDONLY
  | O_WRONLY_O_TRUNC_O_CREAT.

(** What [Main] and [PrintUsage] themselves do to the outside, in order
    (what a collaborator does inside a call is not listed). *)
Inductive Event : Type :=
  | Stderr (text : string)
  | ELog (message : string)
  | Opened (path : string) (flags : OpenFlags)
  | WriteAll (path : string) (data : string)
  | FlushFile (path : string).

(** A run of [Main]: the events up to its end, and the exit status or the
    way in which the run broke off. *)
Record Run : Type := { events : list Event; status : outcome Z }.

(** [PrintUsage(argc, argv)] prints [argv[0]], which is a null pointer when
    there is no argument at all. *)
Definition PrintUsage (argv : list string) : Run :=
  match argv !! 0%nat with
  | Some argv0 =>
      {| events := [Stderr ("Usage: " +:+ argv0 +:+ " INPUT_PATH OUTPUT_PATH"
                              +:+ String (Ascii.ascii_of_nat 10) "")];
         status := Ok 1 |}
  | None => {| events := []; status := Undefined |}
  end.

Section Main.

Variable GetIterator : gmap string Z → list (string * Z).

Variables (ScopedFile FileDescriptor Descriptor : Type).

(** [base::OpenFile(path, flags)]: the open file, or nothing. *)
Variable OpenFile : string → OpenFlags → option ScopedFile.

(** [base::ReadFileDescriptor(fd, &s)]: the bytes that end up in [s] (the
    returned flag is not looked at). *)
Variable ReadFileDescriptor : ScopedFile → string.

(** [importer.Import(path)]: a pointer to the parsed file, possibly null. *)
Variable Import : string → option FileDescriptor.

(** [parsed_file->message_type(i)]: a pointer to a message type. *)
Variable message_type : FileDescriptor → Z → option Descriptor.

(** [SizeProfileComputer::Compute(ptr, size, descriptor)] *)
Variable SizeProfileComputer_Compute :
  string → Descriptor → list (FieldPath * list Z).

(** [profile.SerializeAsString()] *)
Variable SerializeAsString : Profile → string.

(** [PprofProfileComputer::Compute(ptr, size, descriptor)] as [Main] calls
    it: the walker, then the assembly above, then the serializer. *)
Definition Compute_bytes (s : string) (descriptor : Descriptor)
    (c : PprofProfileComputer) : outcome string :=
  do (profile, _, _) ←
    Compute GetIterator (SizeProfileComputer_Compute s descriptor) c;
  Ok (SerializeAsString profile).

Definition Main (argv : list string) : Run :=
  if decide (length argv ≠ 3%nat) then PrintUsage argv
  else
    match argv !! 1%nat, argv !! 2%nat with
    | Some input_path, Some output_path =>
        match OpenFile input_path O_RDONLY with
        | None =>
            {| events :=
                 [ELog ("Could not open input path (" +:+ input_path +:+ ")")];
               status := Ok 1 |}
        | Some proto_fd =>
            let s := ReadFileDescriptor proto_fd in
            match Import "protos/perfetto/trace/trace.proto" with
            | None =>
                {| events := [Opened input_path O_RDONLY];
                   status := Undefined |}
            | Some parsed_file =>
                match message_type parsed_file 0 with
                | None =>
                    {| events := [Opened input_path O_RDONLY;
                                  ELog "Could not parse trace.proto"];
                       status := Ok 1 |}
                | Some descriptor =>
                    match OpenFile output_path O_WRONLY_O_TRUNC_O_CREAT with
                    | None =>
                        {| events :=
                             [Opened input_path O_RDONLY;
                              ELog ("Could not open output path ("
                                      +:+ output_path +:+ ")")];
                           status := Ok 1 |}
                    | Some output_fd =>
                        match Compute_bytes s descriptor new_computer with
                        | Ok out =>
                            {| events :=
                                 [Opened input_path O_RDONLY;
                                  Opened output_path O_WRONLY_O_TRUNC_O_CREAT;
                                  WriteAll output_path out;
                                  FlushFile output_path];
                               status := Ok 0 |}
                        | Fatal =>
                            {| events :=
                                 [Opened input_path O_RDONLY;
                                  Opened output_path O_WRONLY_O_TRUNC_O_CREAT];
                               status := Fatal |}
                        | Undefined =>
                            {| events :=
                                 [Opened input_path O_RDONLY;
                                  Opened output_path O_WRONLY_O_TRUNC_O_CREAT];
                               status := Undefined |}
                        end
                    end
                end
            end
        end
    | _, _ => {| events := []; status := Undefined |}
    end.

End Main.

(** Whether an event touches the file at [path] for writing. *)
Definition writes_to (path : string) (e : Event) : Prop :=
  match e with
  | Opened p O_WRONLY_O_TRUNC_O_CREAT => p = path
  | WriteAll p _ => p = path
  | FlushFile p => p = path
  | _ => False
  end.

(** Events that touch no file for writing. *)
Ltac no_writes :=
  intros _;
  repeat (apply Forall_cons; split;
          [let path := fresh "path" in
           let Hw := fresh "Hw" in
           intros path Hw; exact Hw|]);
  apply Forall_nil; exact I.

(** * Properties *)

(** ** Machine integers *)

Section machine_int.

Lemma static_cast_int_id z :
  - 2 ^ 31 ≤ z ≤ INT_MAX → static_cast_int z = z.
Proof.
  unfold static_cast_int, wrap_signed, INT_MAX. intros Hz.
  change (2 ^ (32 - 1)) with 2147483648 in *.
  change (2 ^ 32) with 4294967296. change (2 ^ 31) with 2147483648 in Hz.
  rewrite Z.mod_small; lia.
Qed.

Lemma static_cast_int64_id z :
  - 2 ^ 63 ≤ z ≤ INT64_MAX → static_cast_int64 z = z.
Proof.
  unfold static_cast_int64, wrap_signed, INT64_MAX. intros Hz.
  change (2 ^ (64 - 1)) with 9223372036854775808 in *.
  change (2 ^ 64) with 18446744073709551616.
  change (2 ^ 63) with 9223372036854775808 in Hz.
  rewrite Z.mod_small; lia.
Qed.

Lemma static_cast_uint64_id z :
  0 ≤ z < 2 ^ 64 → static_cast_uint64 z = z.
Proof. intros Hz. unfold static_cast_uint64, wrap_unsigned. by apply Z.mod_small. Qed.

Lemma size_t_add_id a b :
  0 ≤ a + b < 2 ^ 64 → size_t_add a b = a + b.
Proof. intros Hz. unfold size_t_add, wrap_unsigned. by apply Z.mod_small. Qed.

Lemma size_t_sub_id a b :
  0 ≤ a - b < 2 ^ 64 → size_t_sub a b = a - b.
Proof. intros Hz. unfold size_t_sub, wrap_unsigned. by apply Z.mod_small. Qed.

(** [count - 1] for [count = 0] is [SIZE_MAX]. *)
Lemma size_t_sub_0_1 : size_t_sub 0 1 = 2 ^ 64 - 1.
Proof. reflexivity. Qed.

Lemma int_add_id a b :
  - 2 ^ 31 ≤ a + b ≤ INT_MAX → int_add a b = a + b.
Proof. intros Hz. unfold int_add. by apply static_cast_int_id. Qed.

(** The id of a freshly pushed string: [strings_.size() - 1] as an [int]. *)
Lemma new_string_id (n : nat) :
  Z.of_nat n < 2 ^ 31 →
  static_cast_int (size_t_sub (Z.of_nat (S n)) 1) = Z.of_nat n.
Proof.
  intros Hn. change (2 ^ 31) with 2147483648 in Hn.
  rewrite size_t_sub_id.
  - rewrite static_cast_int_id; unfold INT_MAX;
      change (2 ^ 31) with 2147483648; lia.
  - change (2 ^ 64) with 18446744073709551616. lia.
Qed.

(** The id of a fresh location: [locations_.size() + 1] as an [int]. *)
Lemma new_location_id (n : nat) :
  Z.of_nat n < INT_MAX →
  int_add (static_cast_int (Z.of_nat n)) 1 = Z.of_nat n + 1.
Proof.
  unfold INT_MAX. intros Hn. change (2 ^ 31) with 2147483648 in Hn.
  rewrite static_cast_int_id; [rewrite int_add_id|]; unfold INT_MAX;
    change (2 ^ 31) with 2147483648; lia.
Qed.

End machine_int.

(** ** The string interner *)

Section string_interner.

Implicit Types (c : PprofProfileComputer) (s : string) (l : list string).

Lemma InternString_locations s c :
  locations_ (InternString s c).2 = locations_ c.
Proof. unfold InternString. by destruct (string_to_id_ c !! s). Qed.

Lemma InternString_known s c i :
  string_to_id_ c !! s = Some i → InternString s c = (i, c).
Proof. intros H. unfold InternString. by rewrite H. Qed.

Lemma InternString_fresh s c :
  string_to_id_ c !! s = None →
  strings_ (InternString s c).2 = strings_ c ++ [s] ∧
  (InternString s c).1 =
    static_cast_int (size_t_sub (Z.of_nat (length (strings_ c ++ [s]))) 1).
Proof. intros H. unfold InternString. by rewrite H. Qed.

Lemma strings_dom_new : strings_dom new_computer.
Proof.
  split; [constructor|]. intros s. simpl. rewrite lookup_empty.
  split; [by intros [? ?] | by intros ?%elem_of_nil].
Qed.

Lemma InternString_strings_dom s c :
  strings_dom c →
  strings_dom (InternString s c).2 ∧
  strings_ (InternString s c).2 = first_seen_step (strings_ c) s.
Proof.
  intros [Hnd Hdom]. unfold InternString, first_seen_step.
  destruct (string_to_id_ c !! s) as [i|] eqn:Hs; simpl.
  - assert (s ∈ strings_ c) by (apply Hdom; eauto).
    rewrite decide_True by done. by split.
  - assert (s ∉ strings_ c) as Hnotin.
    { intros Hin%Hdom. rewrite Hs in Hin. by destruct Hin. }
    rewrite decide_False by done. split; [split|done]; simpl.
    + apply NoDup_app. split_and!; [done| |apply NoDup_singleton].
      intros x Hx ->%list_elem_of_singleton. done.
    + intros t. rewrite elem_of_app, list_elem_of_singleton.
      destruct (decide (s = t)) as [->|Hne].
      * rewrite lookup_insert_eq. split; eauto.
      * rewrite lookup_insert_ne by done. rewrite Hdom.
        split; [by left|]. by intros [?|?].
Qed.

Lemma InternStrings_strings_dom l c :
  strings_dom c →
  strings_dom (InternStrings l c).2 ∧
  strings_ (InternStrings l c).2 = first_seen (strings_ c) l.
Proof.
  revert c. induction l as [|s l IH]; intros c Hc; [done|].
  simpl. destruct (InternString s c) as [i c1] eqn:E1.
  destruct (InternStrings l c1) as [ids c2] eqn:E2. simpl.
  destruct (InternString_strings_dom s c Hc) as [Hc1 Hs1].
  rewrite E1 in Hc1, Hs1. simpl in *.
  destruct (IH c1 Hc1) as [Hc2 Hs2]. rewrite E2 in Hc2, Hs2. simpl in *.
  split; [done|]. unfold first_seen in *. simpl. by rewrite <-Hs1.
Qed.

Lemma strings_inv_new : strings_inv new_computer.
Proof.
  split; [constructor|]. intros s i. simpl. rewrite lookup_empty.
  split; [done|]. intros [_ H]. by rewrite lookup_nil in H.
Qed.

Lemma strings_inv_dom c : strings_inv c → strings_dom c.
Proof.
  intros [Hnd Hinv]. split; [done|]. intros s. split.
  - intros [i Hi]. apply Hinv in Hi as [_ Hi].
    by eapply list_elem_of_lookup_2.
  - intros [k Hk]%list_elem_of_lookup_1. exists (Z.of_nat k).
    apply Hinv. split; [lia|]. by rewrite Nat2Z.id.
Qed.

(** One call under the invariant, with room left in [int]. *)
Lemma InternString_strings_inv s c :
  strings_inv c →
  Z.of_nat (length (strings_ c)) < 2 ^ 31 →
  let '(i, c') := InternString s c in
  strings_inv c' ∧
  strings_ c' = first_seen_step (strings_ c) s ∧
  0 ≤ i ∧ strings_ c' !! Z.to_nat i = Some s ∧
  string_to_id_ c' !! s = Some i.
Proof.
  intros Hinv Hlen.
  pose proof (strings_inv_dom c Hinv) as Hdom.
  destruct (InternString_strings_dom s c Hdom) as [[Hnd' _] Hfs].
  destruct Hinv as [Hnd Hinv]. destruct Hdom as [_ Hdom].
  unfold InternString in *.
  destruct (string_to_id_ c !! s) as [i|] eqn:Hs; simpl in *.
  - apply Hinv in Hs as Hs'. destruct Hs' as [? ?]. by split_and!.
  - rewrite length_app, Nat.add_1_r, new_string_id by done.
    split_and!; try done.
    + split; [done|]. simpl. intros t j.
      destruct (decide (s = t)) as [->|Hne].
      * rewrite lookup_insert_eq. split.
        -- intros [= <-]. split; [lia|]. rewrite Nat2Z.id.
           by rewrite lookup_app_r, Nat.sub_diag by lia.
        -- intros [Hj Hlk]. f_equal.
           assert (Z.to_nat j = length (strings_ c)) as Hj'.
           { eapply NoDup_lookup; [exact Hnd'|exact Hlk|].
             by rewrite lookup_app_r, Nat.sub_diag by lia. }
           lia.
      * rewrite lookup_insert_ne by done. rewrite Hinv. split.
        -- intros [Hj Hlk]. split; [done|].
           by rewrite lookup_app_l by (by eapply lookup_lt_Some).
        -- intros [Hj Hlk]. split; [done|].
           apply lookup_app_Some in Hlk as [Hlk|[Hge Hlk]]; [done|].
           apply list_lookup_singleton_Some in Hlk as [_ ?]. done.
    + lia.
    + rewrite Nat2Z.id. by rewrite lookup_app_r, Nat.sub_diag by lia.
    + by rewrite lookup_insert_eq.
Qed.

End string_interner.

(** ** First-seen order *)

Section first_seen.

Implicit Types (acc l : list string) (s : string).

Lemma first_seen_step_prefix acc s : acc `prefix_of` first_seen_step acc s.
Proof.
  unfold first_seen_step. case_decide; [done|]. by apply prefix_app_r.
Qed.

Lemma first_seen_step_length acc s :
  (length (first_seen_step acc s) ≤ S (length acc))%nat.
Proof.
  unfold first_seen_step. case_decide; [lia|].
  rewrite length_app. simpl. lia.
Qed.

Lemma first_seen_step_elem acc s : s ∈ first_seen_step acc s.
Proof.
  unfold first_seen_step. case_decide; [done|].
  apply elem_of_app. right. by apply list_elem_of_singleton.
Qed.

Lemma first_seen_step_NoDup acc s : NoDup acc → NoDup (first_seen_step acc s).
Proof.
  intros Hnd. unfold first_seen_step. case_decide; [done|].
  apply NoDup_app. split_and!; [done| |apply NoDup_singleton].
  by intros x Hx ->%list_elem_of_singleton.
Qed.

Lemma first_seen_prefix acc l : acc `prefix_of` first_seen acc l.
Proof.
  revert acc. induction l as [|s l IH]; intros acc; [done|].
  unfold first_seen in *. simpl. etrans; [apply first_seen_step_prefix|apply IH].
Qed.

Lemma first_seen_length acc l :
  (length (first_seen acc l) ≤ length acc + length l)%nat.
Proof.
  revert acc. induction l as [|s l IH]; intros acc; simpl; [unfold first_seen; simpl; lia|].
  unfold first_seen in *. simpl. specialize (IH (first_seen_step acc s)).
  pose proof (first_seen_step_length acc s). lia.
Qed.

Lemma first_seen_NoDup acc l : NoDup acc → NoDup (first_seen acc l).
Proof.
  revert acc. induction l as [|s l IH]; intros acc Hnd; [done|].
  unfold first_seen in *. simpl. by apply IH, first_seen_step_NoDup.
Qed.

Lemma first_seen_elem acc l s : s ∈ first_seen acc l ↔ s ∈ acc ∨ s ∈ l.
Proof.
  revert acc. induction l as [|t l IH]; intros acc.
  - unfold first_seen. simpl. split; [by left|]. intros [?|?%elem_of_nil]; done.
  - unfold first_seen in *. simpl. rewrite IH, elem_of_cons.
    unfold first_seen_step. case_decide as Ht.
    + split; [intros [?|?]; auto|]. intros [?|[->|?]]; auto.
    + rewrite elem_of_app, list_elem_of_singleton.
      split; [intros [[?|?]|?]; auto|]. intros [?|[?|?]]; auto.
Qed.

Lemma first_seen_app acc l1 l2 :
  first_seen acc (l1 ++ l2) = first_seen (first_seen acc l1) l2.
Proof. unfold first_seen. apply foldl_app. Qed.

(** Names that are pairwise distinct are all new, in their own order. *)
Lemma first_seen_distinct l : NoDup l → first_seen [] l = l.
Proof.
  intros Hnd. cut (∀ acc, NoDup (acc ++ l) → first_seen acc l = acc ++ l).
  { intros H. by apply (H []). }
  clear Hnd. induction l as [|s l IH]; intros acc Hnd.
  - unfold first_seen. simpl. by rewrite app_nil_r.
  - unfold first_seen in *. simpl. unfold first_seen_step.
    rewrite decide_False.
    + rewrite IH; [by rewrite <-app_assoc|]. by rewrite <-app_assoc.
    + apply NoDup_app in Hnd as (_ & Hd & _). intros Hin.
      apply (Hd s Hin). by left.
Qed.

End first_seen.

(** ** The location interner *)

Section location_interner.

Implicit Types (c : PprofProfileComputer) (s : string) (l seen : list string).

Lemma InternLocation_strings s c :
  strings_ (InternLocation s c).2 = strings_ c ∧
  string_to_id_ (InternLocation s c).2 = string_to_id_ c.
Proof. unfold InternLocation. by destruct (locations_ c !! s). Qed.

Lemma InternLocation_known s c i :
  locations_ c !! s = Some i → InternLocation s c = (i, c).
Proof. intros H. unfold InternLocation. by rewrite H. Qed.

(** The table only grows, and the returned id is the one recorded. *)
Lemma InternLocation_lookup s c :
  locations_ c ⊆ locations_ (InternLocation s c).2 ∧
  locations_ (InternLocation s c).2 !! s = Some (InternLocation s c).1.
Proof.
  unfold InternLocation. destruct (locations_ c !! s) as [i|] eqn:Hs; simpl.
  - done.
  - split; [by apply insert_subseteq|by rewrite lookup_insert_eq].
Qed.

Lemma InternLocations_strings l c :
  strings_ (InternLocations l c).2 = strings_ c ∧
  string_to_id_ (InternLocations l c).2 = string_to_id_ c.
Proof.
  revert c. induction l as [|s l IH]; intros c; [done|]. simpl.
  destruct (InternLocation s c) as [i c1] eqn:E1.
  destruct (InternLocations l c1) as [ids c2] eqn:E2. simpl.
  destruct (IH c1) as [H1 H2]. rewrite E2 in H1, H2. simpl in *.
  destruct (InternLocation_strings s c) as [H3 H4].
  rewrite E1 in H3, H4. simpl in *. by rewrite H1, H2.
Qed.

Lemma InternLocations_recorded l c :
  locations_ c ⊆ locations_ (InternLocations l c).2 ∧
  Forall2 (λ s i, locations_ (InternLocations l c).2 !! s = Some i)
    l (InternLocations l c).1.
Proof.
  revert c. induction l as [|s l IH]; intros c; [by split; [|constructor]|].
  simpl. destruct (InternLocation s c) as [i c1] eqn:E1.
  destruct (InternLocations l c1) as [ids c2] eqn:E2. simpl.
  destruct (IH c1) as [H1 H2]. rewrite E2 in H1, H2. simpl in *.
  destruct (InternLocation_lookup s c) as [H3 H4].
  rewrite E1 in H3, H4. simpl in *. split; [by etrans|].
  constructor; [|done]. by apply (lookup_weaken _ _ _ _ H4 H1).
Qed.

Lemma InternLocations_lookup l c :
  (InternLocations l c).1 = map (location_of (InternLocations l c).2) l.
Proof.
  destruct (InternLocations_recorded l c) as [_ H].
  destruct (InternLocations l c) as [ids0 c']. simpl in *.
  induction H as [|s i l' ids Hs H IH]; [done|]. simpl.
  f_equal; [|done]. unfold location_of. by rewrite Hs.
Qed.

Lemma InternLocations_app l1 l2 c :
  InternLocations (l1 ++ l2) c =
    let '(ids1, c1) := InternLocations l1 c in
    let '(ids2, c2) := InternLocations l2 c1 in
    (ids1 ++ ids2, c2).
Proof.
  revert c. induction l1 as [|s l1 IH]; intros c; simpl.
  - by destruct (InternLocations l2 c).
  - destruct (InternLocation s c) as [i c1]. rewrite IH.
    destruct (InternLocations l1 c1) as [ids1 c2].
    by destruct (InternLocations l2 c2).
Qed.

Lemma locations_inv_new : locations_inv [] new_computer.
Proof.
  split_and!; [constructor|done|]. intros s i. simpl. rewrite lookup_empty.
  split; [done|]. intros [_ H]. by rewrite lookup_nil in H.
Qed.

(** One call under the invariant, with room left in [int]. *)
Lemma InternLocation_locations_inv seen s c :
  locations_inv seen c →
  Z.of_nat (length seen) < INT_MAX →
  let '(i, c') := InternLocation s c in
  locations_inv (first_seen_step seen s) c' ∧
  (i = Z.of_nat (length seen) + 1 ∨ locations_ c !! s = Some i).
Proof.
  intros (Hnd & Hsize & Hinv) Hlen.
  assert (is_Some (locations_ c !! s) ↔ s ∈ seen) as Hdom.
  { split.
    - intros [i Hi]. apply Hinv in Hi as [_ Hi].
      by eapply list_elem_of_lookup_2.
    - intros [k Hk]%list_elem_of_lookup_1. exists (Z.of_nat k + 1).
      apply Hinv. split; [lia|].
      by replace (Z.to_nat (Z.of_nat k + 1 - 1)) with k by lia. }
  unfold InternLocation, first_seen_step.
  destruct (locations_ c !! s) as [i|] eqn:Hs.
  - rewrite decide_True by (apply Hdom; eauto). split; [done|by right].
  - assert (s ∉ seen) as Hnotin.
    { intros Hin%Hdom. by destruct Hin. }
    rewrite decide_False by done.
    rewrite Hsize, new_location_id by done.
    split; [|by left]. split_and!; simpl.
    + by apply (first_seen_step_NoDup seen s) in Hnd as Hnd';
        unfold first_seen_step in Hnd'; rewrite decide_False in Hnd'.
    + rewrite map_size_insert_None by done. rewrite length_app. simpl. lia.
    + intros t j. destruct (decide (s = t)) as [->|Hne].
      * rewrite lookup_insert_eq. split.
        -- intros [= <-]. split; [lia|].
           replace (Z.to_nat (Z.of_nat (length seen) + 1 - 1))
             with (length seen) by lia.
           by rewrite lookup_app_r, Nat.sub_diag by lia.
        -- intros [Hj Hlk]. f_equal.
           apply lookup_app_Some in Hlk as [Hlk|[Hge Hlk]].
           ++ exfalso. apply Hnotin. by eapply list_elem_of_lookup_2.
           ++ apply list_lookup_singleton_Some in Hlk as [? _]. lia.
      * rewrite lookup_insert_ne by done. rewrite Hinv. split.
        -- intros [Hj Hlk]. split; [done|].
           by rewrite lookup_app_l by (by eapply lookup_lt_Some).
        -- intros [Hj Hlk]. split; [done|].
           apply lookup_app_Some in Hlk as [Hlk|[Hge Hlk]]; [done|].
           apply list_lookup_singleton_Some in Hlk as [_ ?]. done.
Qed.

Lemma InternLocations_locations_inv l seen c :
  locations_inv seen c →
  Z.of_nat (length seen) + Z.of_nat (length l) ≤ INT_MAX →
  locations_inv (first_seen seen l) (InternLocations l c).2.
Proof.
  revert seen c. induction l as [|s l IH]; intros seen c Hinv Hlen; [done|].
  simpl in *. destruct (InternLocation s c) as [i c1] eqn:E1.
  destruct (InternLocations l c1) as [ids c2] eqn:E2. simpl.
  pose proof (InternLocation_locations_inv seen s c Hinv) as H1.
  rewrite E1 in H1. destruct H1 as [H1 _]; [lia|].
  pose proof (first_seen_step_length seen s).
  specialize (IH _ c1 H1). rewrite E2 in IH. simpl in IH.
  unfold first_seen in *. simpl. apply IH. lia.
Qed.

End location_interner.

(** ** Statistics of one entry *)

Section statistics.

Implicit Types (v l : list Z).

Lemma std_sort_Permutation v : std_sort v ≡ₚ v.
Proof. apply merge_sort_Permutation. Qed.

Lemma std_sort_sorted v : StronglySorted Z.le (std_sort v).
Proof. apply (StronglySorted_merge_sort Z.le). Qed.

Lemma std_sort_length v : length (std_sort v) = length v.
Proof. by rewrite std_sort_Permutation. Qed.

Lemma std_sort_elem v x : x ∈ std_sort v ↔ x ∈ v.
Proof. by rewrite std_sort_Permutation. Qed.

Lemma std_sort_nil_inv v : std_sort v = [] → v = [].
Proof.
  intros H. apply Permutation_nil_r. rewrite <-H.
  symmetry. apply std_sort_Permutation.
Qed.

(** Any ascending rearrangement of [v] is the one [std::sort] leaves. *)
Lemma std_sort_unique v l :
  Sorted Z.le l → l ≡ₚ v → l = std_sort v.
Proof.
  intros Hs Hp. apply (Sorted_unique Z.le); [done| |].
  - apply StronglySorted_Sorted, std_sort_sorted.
  - by rewrite std_sort_Permutation.
Qed.

Lemma vector_at_lookup v (n : nat) x :
  v !! n = Some x → vector_at v (Z.of_nat n) = Ok x.
Proof.
  intros H. unfold vector_at. pose proof (lookup_lt_Some _ _ _ H).
  rewrite decide_True by lia. by rewrite Nat2Z.id, H.
Qed.

Lemma vector_at_out_of_range v i :
  Z.of_nat (length v) ≤ i → vector_at v i = Undefined.
Proof. intros H. unfold vector_at. by rewrite decide_False by lia. Qed.

Lemma max_list_spec x l :
  max_list (x :: l) ∈ x :: l ∧ ∀ y, y ∈ x :: l → y ≤ max_list (x :: l).
Proof.
  simpl. induction l as [|z l [IH1 IH2]]; simpl.
  - split; [by left|]. intros y ->%list_elem_of_singleton. lia.
  - split.
    + destruct (Z.max_spec z (foldr Z.max x l)) as [[_ ->]|[_ ->]].
      * apply elem_of_cons in IH1 as [->|?]; [by left|by do 2 right].
      * right. by left.
    + intros y Hy. assert (y = z ∨ y ∈ x :: l) as [->|Hin].
      { rewrite !elem_of_cons in Hy. rewrite elem_of_cons. tauto. }
      * lia.
      * specialize (IH2 y Hin). lia.
Qed.

Lemma min_list_spec x l :
  min_list (x :: l) ∈ x :: l ∧ ∀ y, y ∈ x :: l → min_list (x :: l) ≤ y.
Proof.
  simpl. induction l as [|z l [IH1 IH2]]; simpl.
  - split; [by left|]. intros y ->%list_elem_of_singleton. lia.
  - split.
    + destruct (Z.min_spec z (foldr Z.min x l)) as [[_ ->]|[_ ->]].
      * right. by left.
      * apply elem_of_cons in IH1 as [->|?]; [by left|by do 2 right].
    + intros y Hy. assert (y = z ∨ y ∈ x :: l) as [->|Hin].
      { rewrite !elem_of_cons in Hy. rewrite elem_of_cons. tauto. }
      * lia.
      * specialize (IH2 y Hin). lia.
Qed.

(** In an ascending vector the first element is below every other one and
    the last one above. *)
Lemma sorted_lookup_le l (i j : nat) x y :
  StronglySorted Z.le l → l !! i = Some x → l !! j = Some y →
  (i ≤ j)%nat → x ≤ y.
Proof.
  intros Hs. revert i j. induction Hs as [|a l Hs IH Hall]; intros i j Hi Hj Hij.
  - by rewrite lookup_nil in Hi.
  - destruct i as [|i], j as [|j]; simpl in *; simplify_eq; try lia.
    + rewrite Forall_forall in Hall. apply Hall.
      by eapply list_elem_of_lookup_2.
    + eapply IH; eauto. lia.
Qed.

Lemma sorted_first_min v x :
  v ≠ [] → std_sort v !! 0%nat = Some x → x = min_list v.
Proof.
  intros Hv Hx. destruct v as [|a v]; [done|].
  destruct (min_list_spec a v) as [Hin Hle].
  apply Z.le_antisymm.
  - apply std_sort_elem in Hin.
    apply list_elem_of_lookup_1 in Hin as [k Hk].
    eapply sorted_lookup_le; [apply std_sort_sorted|exact Hx|exact Hk|lia].
  - apply Hle. apply std_sort_elem.
    by eapply list_elem_of_lookup_2.
Qed.

Lemma sorted_last_max v x :
  v ≠ [] → std_sort v !! (length v - 1)%nat = Some x → x = max_list v.
Proof.
  intros Hv Hx. destruct v as [|a v]; [done|].
  destruct (max_list_spec a v) as [Hin Hle].
  apply Z.le_antisymm.
  - apply Hle. apply std_sort_elem.
    by eapply list_elem_of_lookup_2.
  - apply std_sort_elem in Hin.
    apply list_elem_of_lookup_1 in Hin as [k Hk].
    pose proof (lookup_lt_Some _ _ _ Hk) as Hlt.
    rewrite std_sort_length in Hlt.
    eapply sorted_lookup_le; [apply std_sort_sorted|exact Hk|exact Hx|lia].
Qed.

Lemma sum_list_Permutation l1 l2 : l1 ≡ₚ l2 → sum_list l1 = sum_list l2.
Proof.
  induction 1; unfold sum_list in *; simpl; lia.
Qed.

Lemma sum_list_nonneg l : Forall (λ x, 0 ≤ x) l → 0 ≤ sum_list l.
Proof. induction 1; unfold sum_list in *; simpl; lia. Qed.

(** The accumulation loop computes the sum modulo [2 ^ 64]. *)
Lemma total_size_loop l a :
  foldl size_t_add a l = wrap_unsigned 64 a ∨ l ≠ [] →
  foldl size_t_add a l = wrap_unsigned 64 (a + sum_list l).
Proof.
  revert a. induction l as [|x l IH]; intros a Ha.
  - unfold sum_list. simpl in *. rewrite Z.add_0_r. by destruct Ha.
  - simpl. rewrite IH.
    + unfold size_t_add, wrap_unsigned, sum_list. simpl.
      rewrite Zplus_mod_idemp_l. f_equal. lia.
    + destruct l; [left|by right]. simpl.
      unfold size_t_add, wrap_unsigned. by rewrite Z.mod_mod.
Qed.

Lemma total_size_exact l :
  Forall (λ x, 0 ≤ x) l → sum_list l ≤ INT64_MAX →
  static_cast_int64 (foldl size_t_add 0 l) = sum_list l.
Proof.
  intros Hpos Hsum. pose proof (sum_list_nonneg l Hpos).
  unfold INT64_MAX in *. change (2 ^ 63) with 9223372036854775808 in *.
  rewrite total_size_loop by (destruct l; [left; reflexivity|by right]).
  unfold wrap_unsigned. rewrite Z.add_0_l, Z.mod_small.
  - apply static_cast_int64_id. unfold INT64_MAX.
    change (2 ^ 63) with 9223372036854775808. lia.
  - change (2 ^ 64) with 18446744073709551616. lia.
Qed.

End statistics.

(** ** Runs of the string interner *)

Section string_runs.

Implicit Types (c : PprofProfileComputer) (s : string) (l : list string).

Lemma InternStrings_locations l c :
  locations_ (InternStrings l c).2 = locations_ c.
Proof.
  revert c. induction l as [|s l IH]; intros c; [done|]. simpl.
  destruct (InternString s c) as [i c1] eqn:E1.
  destruct (InternStrings l c1) as [ids c2] eqn:E2. simpl.
  specialize (IH c1). rewrite E2 in IH. simpl in IH. rewrite IH.
  pose proof (InternString_locations s c) as H. by rewrite E1 in H.
Qed.

Lemma InternStrings_length l c : length (InternStrings l c).1 = length l.
Proof.
  revert c. induction l as [|s l IH]; intros c; [done|]. simpl.
  destruct (InternString s c) as [i c1] eqn:E1.
  destruct (InternStrings l c1) as [ids c2] eqn:E2. simpl.
  specialize (IH c1). rewrite E2 in IH. simpl in IH. by rewrite IH.
Qed.

Lemma InternStrings_app l1 l2 c :
  InternStrings (l1 ++ l2) c =
    let '(ids1, c1) := InternStrings l1 c in
    let '(ids2, c2) := InternStrings l2 c1 in
    (ids1 ++ ids2, c2).
Proof.
  revert c. induction l1 as [|s l1 IH]; intros c; simpl.
  - by destruct (InternStrings l2 c).
  - destruct (InternString s c) as [i c1]. rewrite IH.
    destruct (InternStrings l1 c1) as [ids1 c2].
    by destruct (InternStrings l2 c2).
Qed.

(** A run under the invariant, with room left in [int]: every returned id
    is the position of its text in the final table. *)
Lemma InternStrings_strings_inv l c :
  strings_inv c →
  Z.of_nat (length (strings_ c)) + Z.of_nat (length l) ≤ 2 ^ 31 →
  let '(ids, c') := InternStrings l c in
  strings_inv c' ∧
  strings_ c' = first_seen (strings_ c) l ∧
  Forall2 (λ s i, 0 ≤ i ∧ strings_ c' !! Z.to_nat i = Some s) l ids.
Proof.
  revert c. induction l as [|s l IH]; intros c Hinv Hlen; [done|].
  simpl in *. destruct (InternString s c) as [i c1] eqn:E1.
  destruct (InternStrings l c1) as [ids c2] eqn:E2.
  pose proof (InternString_strings_inv s c Hinv) as H1.
  rewrite E1 in H1. destruct H1 as (Hinv1 & Hs1 & Hi & Hlk & _); [lia|].
  pose proof (first_seen_step_length (strings_ c) s) as Hl1.
  specialize (IH c1 Hinv1). rewrite E2 in IH.
  destruct IH as (Hinv2 & Hs2 & Hall); [rewrite Hs1; lia|].
  split_and!; [done| |].
  - unfold first_seen in *. simpl. by rewrite <-Hs1.
  - constructor; [|done]. split; [done|].
    eapply prefix_lookup_Some; [exact Hlk|].
    rewrite Hs2. apply first_seen_prefix.
Qed.

End string_runs.

(** ** The loops of [Compute] *)

Section loops.

Implicit Types (c : PprofProfileComputer) (entries : list (FieldPath * list Z)).

Lemma sample_values_empty : sample_values [] = Undefined.
Proof. reflexivity. Qed.

(** The three reads of a non-empty vector are in range. *)
Lemma sample_values_nonempty v :
  v ≠ [] →
  ∃ mx mn md,
    v !! Z.to_nat (size_t_sub (Z.of_nat (length v)) 1) = Some mx ∧
    v !! 0%nat = Some mn ∧
    v !! Z.to_nat (Z.of_nat (length v) / 2) = Some md ∧
    sample_values v =
      Ok [static_cast_int64 (Z.of_nat (length v)); static_cast_int64 mx;
          static_cast_int64 mn; static_cast_int64 md;
          static_cast_int64 (foldl size_t_add 0 v)].
Proof.
  intros Hv. assert (0 < Z.of_nat (length v)) as Hlen.
  { destruct v; [done|simpl; lia]. }
  set (n := Z.of_nat (length v)) in *.
  assert (0 ≤ size_t_sub n 1 < n) as Hmx.
  { unfold size_t_sub, wrap_unsigned.
    pose proof (Z.mod_pos_bound (n - 1) (2 ^ 64) eq_refl).
    pose proof (Z.mod_le (n - 1) (2 ^ 64)). lia. }
  assert (0 ≤ n / 2 < n) as Hmd.
  { split; [apply Z.div_pos; lia|apply Z.div_lt_upper_bound; lia]. }
  destruct (lookup_lt_is_Some_2 v (Z.to_nat (size_t_sub n 1))) as [mx Hx];
    [lia|].
  destruct (lookup_lt_is_Some_2 v 0%nat) as [mn Hn]; [lia|].
  destruct (lookup_lt_is_Some_2 v (Z.to_nat (n / 2))) as [md Hd]; [lia|].
  exists mx, mn, md. split_and!; try done.
  unfold sample_values. fold n.
  replace (size_t_sub n 1) with (Z.of_nat (Z.to_nat (size_t_sub n 1))) by lia.
  rewrite (vector_at_lookup _ _ _ Hx). simpl.
  change 0 with (Z.of_nat 0) at 1. rewrite (vector_at_lookup _ _ _ Hn). simpl.
  replace (n / 2) with (Z.of_nat (Z.to_nat (n / 2))) at 1 by lia.
  by rewrite (vector_at_lookup _ _ _ Hd).
Qed.

Lemma emit_sample_empty path c : emit_sample path [] c = Undefined.
Proof.
  unfold emit_sample. destruct (InternLocations (reverse path) c).
  reflexivity.
Qed.

Lemma emit_sample_nonempty path v c :
  v ≠ [] →
  ∃ vs, sample_values (std_sort v) = Ok vs ∧
    emit_sample path v c =
      Ok ({| location_id := (InternLocations (reverse path) c).1;
             value := vs |},
          std_sort v, (InternLocations (reverse path) c).2).
Proof.
  intros Hv. unfold emit_sample.
  destruct (InternLocations (reverse path) c) as [ids c1].
  destruct (sample_values_nonempty (std_sort v)) as (mx & mn & md & _ & _ & _ & Hvs).
  { intros H. by apply std_sort_nil_inv in H. }
  eexists. split; [exact Hvs|]. by rewrite Hvs.
Qed.

(** The names interned by the loop over the entries, in call order. *)
Lemma sample_loop_nonempty entries c :
  Forall (λ e, e.2 ≠ []) entries →
  let c' := (InternLocations (interned_names entries) c).2 in
  ∃ ss,
    sample_loop entries c =
      Ok (ss, map (λ e, (e.1, std_sort e.2)) entries, c') ∧
    Forall2 (λ e s,
               location_id s = map (location_of c') (reverse e.1) ∧
               sample_values (std_sort e.2) = Ok (value s)) entries ss.
Proof.
  intros Hall. revert c. induction Hall as [|[path v] entries Hv Hall IH];
    intros c; simpl.
  - by exists [].
  - simpl in Hv. destruct (emit_sample_nonempty path v c Hv) as (vs & Hvs & ->).
    simpl.
    change (interned_names ((path, v) :: entries))
      with (reverse path ++ interned_names entries).
    rewrite InternLocations_app.
    pose proof (InternLocations_lookup (reverse path) c) as Hids.
    pose proof (InternLocations_recorded (reverse path) c) as [_ Hrec].
    destruct (InternLocations (reverse path) c) as [ids c1]. simpl in *.
    destruct (IH c1) as (ss & -> & Hss). simpl.
    pose proof (InternLocations_recorded (interned_names entries) c1)
      as [Hsub _].
    destruct (InternLocations (interned_names entries) c1) as [ids2 c2].
    simpl in *.
    eexists. split; [done|]. constructor; [|done]. simpl. split; [|done].
    rewrite Hids. apply map_ext_in. intros name Hin.
    apply list_elem_of_In, list_elem_of_lookup_1 in Hin as [k Hk].
    destruct (Forall2_lookup_l _ _ _ _ _ Hrec Hk) as (i & _ & Hi).
    unfold location_of. by rewrite Hi, (lookup_weaken _ _ _ _ Hi Hsub).
Qed.

Lemma sample_loop_empty entries c :
  Exists (λ e, e.2 = []) entries → sample_loop entries c = Undefined.
Proof.
  revert c. induction entries as [|[path v] entries IH]; intros c Hex.
  - by apply Exists_nil in Hex.
  - simpl. destruct v as [|x v].
    + by rewrite emit_sample_empty.
    + destruct (emit_sample_nonempty path (x :: v) c) as (vs & _ & ->); [done|].
      simpl. apply Exists_cons in Hex as [Hex|Hex]; [done|].
      by rewrite IH.
Qed.

Lemma sample_loop_Ok_inv entries c r :
  sample_loop entries c = Ok r → Forall (λ e, e.2 ≠ []) entries.
Proof.
  intros Hr. apply Forall_forall. intros e He Hempty.
  rewrite sample_loop_empty in Hr; [done|].
  apply Exists_exists. eauto.
Qed.

Lemma location_loop_eq (its : list (string * Z)) c :
  location_loop its c =
    (map location_record its,
     zip_with function_record its (InternStrings its.*1 c).1,
     (InternStrings its.*1 c).2).
Proof.
  revert c. induction its as [|[key val] its IH]; intros c; [done|].
  simpl. destruct (InternString key c) as [name c1]. rewrite IH.
  change (list_fmap _ _ fst its) with (its.*1).
  by destruct (InternStrings its.*1 c1) as [ids c2].
Qed.

Lemma add_sample_types_strings decls c :
  (add_sample_types decls c).2 =
    (InternStrings (concat (map (λ d, [d.1; d.2]) decls)) c).2.
Proof.
  revert c. induction decls as [|[t u] decls IH]; intros c; [done|].
  simpl. unfold add_sample_type.
  destruct (InternString t c) as [it c1].
  destruct (InternString u c1) as [iu c2].
  specialize (IH c2).
  destruct (add_sample_types decls c2) as [vts c3].
  by destruct (InternStrings _ c2) as [ids c4].
Qed.

Lemma InternLocations_size (l : list string) c :
  (size (locations_ (InternLocations l c).2)
     ≤ size (locations_ c) + length l)%nat.
Proof.
  revert c. induction l as [|s l IH]; intros c; simpl; [lia|].
  destruct (InternLocation s c) as [i c1] eqn:E1.
  specialize (IH c1).
  destruct (InternLocations l c1) as [ids c2]. simpl in *.
  assert (size (locations_ c1) ≤ S (size (locations_ c)))%nat; [|lia].
  unfold InternLocation in E1.
  destruct (locations_ c !! s) eqn:Hs; simplify_eq; simpl; [lia|].
  by rewrite map_size_insert_None.
Qed.

End loops.

(** ** [Compute] on a new computer *)

Section prologue.

Lemma after_prologue_strings :
  strings_ after_prologue =
    [""; "protos"; "count"; "max_size"; "bytes"; "min_size"; "median";
     "total_size"]%string.
Proof. reflexivity. Qed.

Lemma after_prologue_locations : locations_ after_prologue = ∅.
Proof. reflexivity. Qed.

Lemma after_prologue_strings_inv : strings_inv after_prologue.
Proof.
  pose proof (InternStrings_strings_inv prologue_texts new_computer
                strings_inv_new) as H.
  unfold after_prologue.
  destruct (InternStrings prologue_texts new_computer) as [ids c].
  by apply H.
Qed.

Lemma prologue_id : (InternString "" new_computer).1 = 0.
Proof. reflexivity. Qed.

Lemma prologue_types :
  add_sample_types sample_type_decls (InternString "" new_computer).2 =
    ([ {| vt_type := 1; vt_unit := 2 |}; {| vt_type := 3; vt_unit := 4 |};
       {| vt_type := 5; vt_unit := 4 |}; {| vt_type := 6; vt_unit := 4 |};
       {| vt_type := 7; vt_unit := 4 |} ], after_prologue).
Proof. vm_compute. reflexivity. Qed.

(** [Compute] on a new computer, up to the loop over the entries. *)
Lemma Compute_new_prologue GetIterator entries :
  Compute GetIterator entries new_computer =
    (do (samples, field_path_to_samples', c2) ←
       sample_loop entries after_prologue;
     let '(locations, functions, c3) :=
       location_loop (GetIterator (locations_ c2)) c2 in
     Ok ({| sample_type :=
              [ {| vt_type := 1; vt_unit := 2 |};
                {| vt_type := 3; vt_unit := 4 |};
                {| vt_type := 5; vt_unit := 4 |};
                {| vt_type := 6; vt_unit := 4 |};
                {| vt_type := 7; vt_unit := 4 |} ];
            sample := samples;
            location := locations;
            function := functions;
            string_table := strings_ c3 |},
         field_path_to_samples', c3)).
Proof.
  unfold Compute. pose proof prologue_id as Hid.
  pose proof prologue_types as Hty.
  destruct (InternString "" new_computer) as [id0 c0].
  cbn [fst snd] in Hid, Hty. rewrite Hid, Hty.
  reflexivity.
Qed.

End prologue.

Section compute_new.

Variable GetIterator : gmap string Z → list (string * Z).

(** What [Compute] returns when every entry has at least one sample. *)
Lemma Compute_new_computer entries :
  Forall (λ e : FieldPath * list Z, e.2 ≠ []) entries →
  let c2 := (InternLocations (interned_names entries) after_prologue).2 in
  let its := GetIterator (locations_ c2) in
  let run := InternStrings its.*1 c2 in
  ∃ ss,
    Compute GetIterator entries new_computer =
      Ok ({| sample_type :=
               [ {| vt_type := 1; vt_unit := 2 |};
                 {| vt_type := 3; vt_unit := 4 |};
                 {| vt_type := 5; vt_unit := 4 |};
                 {| vt_type := 6; vt_unit := 4 |};
                 {| vt_type := 7; vt_unit := 4 |} ];
             sample := ss;
             location := map location_record its;
             function := zip_with function_record its run.1;
             string_table := strings_ run.2 |},
          map (λ e, (e.1, std_sort e.2)) entries, run.2) ∧
    Forall2 (λ e s,
               location_id s = map (location_of c2) (reverse e.1) ∧
               sample_values (std_sort e.2) = Ok (value s)) entries ss.
Proof.
  intros Hall c2 its run. rewrite Compute_new_prologue.
  destruct (sample_loop_nonempty entries after_prologue Hall) as (ss & -> & Hss).
  cbn [obind]. fold c2. fold its. rewrite location_loop_eq. fold run.
  exists ss. by split.
Qed.

(** An entry without samples makes the loop read outside its vector. *)
Lemma Compute_new_computer_empty entries :
  Exists (λ e : FieldPath * list Z, e.2 = []) entries →
  Compute GetIterator entries new_computer = Undefined.
Proof.
  intros Hex. rewrite Compute_new_prologue.
  by rewrite sample_loop_empty.
Qed.

End compute_new.

(** ** The five values of a sample *)

Section sample_values_exact.

Lemma elem_le_sum_list (l : list Z) x :
  Forall (λ y, 0 ≤ y) l → x ∈ l → 0 ≤ x ≤ sum_list l.
Proof.
  induction 1 as [|y l Hy Hall IH]; intros Hin.
  - by apply elem_of_nil in Hin.
  - pose proof (sum_list_nonneg l Hall). unfold sum_list in *. simpl.
    apply elem_of_cons in Hin as [->|Hin]; [lia|].
    specialize (IH Hin). lia.
Qed.

(** Without wrap-around the values read from the sorted vector are the
    count, the maximum, the minimum, the element at [n / 2] and the sum. *)
Lemma sample_values_fits (sizes : list Z) :
  sizes ≠ [] → fits_int64 sizes →
  ∃ median,
    std_sort sizes !! (length sizes / 2)%nat = Some median ∧
    sample_values (std_sort sizes) =
      Ok [Z.of_nat (length sizes); max_list sizes; min_list sizes; median;
          sum_list sizes].
Proof.
  intros Hne (Hpos & Hlen & Hsum).
  assert (std_sort sizes ≠ []) as Hne' by (by intros ?%std_sort_nil_inv).
  destruct (sample_values_nonempty _ Hne') as (mx & mn & md & Hmx & Hmn & Hmd & ->).
  rewrite std_sort_length in *.
  assert (0 < Z.of_nat (length sizes)) as Hn by (destruct sizes; [done|simpl; lia]).
  unfold INT64_MAX in *. change (2 ^ 63) with 9223372036854775808 in *.
  assert (∀ i x, std_sort sizes !! i = Some x → static_cast_int64 x = x) as Hcast.
  { intros i x Hx. apply static_cast_int64_id. unfold INT64_MAX.
    change (2 ^ 63) with 9223372036854775808.
    apply list_elem_of_lookup_2 in Hx.
    apply (proj1 (std_sort_elem _ _)) in Hx.
    pose proof (elem_le_sum_list _ _ Hpos Hx). lia. }
  rewrite size_t_sub_id in Hmx
    by (change (2 ^ 64) with 18446744073709551616; lia).
  replace (Z.to_nat (Z.of_nat (length sizes) - 1))
    with (length sizes - 1)%nat in Hmx by lia.
  replace (Z.to_nat (Z.of_nat (length sizes) / 2))
    with (length sizes / 2)%nat in Hmd
    by (rewrite <-(Nat2Z.id (length sizes / 2)); f_equal;
        by rewrite Nat2Z.inj_div).
  exists md. split; [done|]. do 2 f_equal.
  { apply static_cast_int64_id. unfold INT64_MAX.
    change (2 ^ 63) with 9223372036854775808. lia. }
  rewrite (Hcast _ _ Hmx), (Hcast _ _ Hmn), (Hcast _ _ Hmd).
  rewrite (sorted_last_max _ _ Hne Hmx), (sorted_first_min _ _ Hne Hmn).
  do 4 f_equal.
  rewrite total_size_exact.
  - apply sum_list_Permutation, std_sort_Permutation.
  - by rewrite std_sort_Permutation.
  - rewrite (sum_list_Permutation _ _ (std_sort_Permutation sizes)).
    unfold INT64_MAX. change (2 ^ 63) with 9223372036854775808. lia.
Qed.

End sample_values_exact.

(** ** The string table of the profile *)

Section string_table.

Implicit Types (c : PprofProfileComputer) (l its : list string).

Lemma strings_dom_same c c' :
  strings_ c' = strings_ c → string_to_id_ c' = string_to_id_ c →
  strings_dom c → strings_dom c'.
Proof. unfold strings_dom. by intros -> ->. Qed.

Lemma strings_inv_same c c' :
  strings_ c' = strings_ c → string_to_id_ c' = string_to_id_ c →
  strings_inv c → strings_inv c'.
Proof. unfold strings_inv. by intros -> ->. Qed.

Lemma after_locations_strings_inv l :
  strings_inv (InternLocations l after_prologue).2.
Proof.
  destruct (InternLocations_strings l after_prologue) as [H1 H2].
  eapply strings_inv_same; [exact H1|exact H2|].
  apply after_prologue_strings_inv.
Qed.

(** The table after the last loop lists every text handed to
    [InternString], in the order of first appearance. *)
Lemma final_strings l its :
  strings_ (InternStrings its (InternLocations l after_prologue).2).2 =
    first_seen [] (prologue_texts ++ its).
Proof.
  pose proof (after_locations_strings_inv l) as Hinv.
  apply strings_inv_dom in Hinv.
  destruct (InternStrings_strings_dom its _ Hinv) as [_ ->].
  destruct (InternLocations_strings l after_prologue) as [-> _].
  by rewrite first_seen_app.
Qed.

(** With room left in [int], the name of every function record is the
    position of its field name in the final table. *)
Lemma function_names_resolve l its :
  8 + Z.of_nat (length its) ≤ 2 ^ 31 →
  let run := InternStrings its (InternLocations l after_prologue).2 in
  Forall2 (λ s i, 0 ≤ i ∧ strings_ run.2 !! Z.to_nat i = Some s) its run.1.
Proof.
  intros Hlen run.
  pose proof (InternStrings_strings_inv its _
                (after_locations_strings_inv l)) as H.
  fold run in H. destruct run as [ids c']. simpl. apply H.
  destruct (InternLocations_strings l after_prologue) as [-> _].
  rewrite after_prologue_strings. simpl. lia.
Qed.

End string_table.

(** ** Iterating over a hash map *)

Section iteration.

Variable GetIterator : gmap string Z → list (string * Z).
Hypothesis GetIterator_entries : ∀ m, GetIterator m ≡ₚ map_to_list m.

Lemma GetIterator_length m : length (GetIterator m) = size m.
Proof. by rewrite GetIterator_entries, length_map_to_list. Qed.

Lemma GetIterator_elem m k v : (k, v) ∈ GetIterator m ↔ m !! k = Some v.
Proof. by rewrite GetIterator_entries, elem_of_map_to_list. Qed.

Lemma GetIterator_NoDup_keys m : NoDup (GetIterator m).*1.
Proof. rewrite GetIterator_entries. apply NoDup_fst_map_to_list. Qed.

End iteration.

(** ** Function records *)

Section function_records.

Lemma function_records_resolve (table : list string)
    (its : list (string * Z)) (ids : list Z) :
  Forall2 (λ s i, 0 ≤ i ∧ table !! Z.to_nat i = Some s) its.*1 ids →
  Forall2 (λ kv f,
             fn_id f = static_cast_uint64 kv.2 ∧ 0 ≤ fn_name f ∧
             table !! Z.to_nat (fn_name f) = Some kv.1)
    its (zip_with function_record its ids).
Proof.
  revert ids. induction its as [|kv its IH]; intros ids Hall.
  - constructor.
  - apply Forall2_cons_inv_l in Hall as (i & ids' & [Hi Hlk] & Hall & ->).
    simpl. constructor; [done|]. by apply IH.
Qed.

Lemma map_reverse {A B} (f : A → B) (l : list A) :
  map f (reverse l) = reverse (map f l).
Proof. apply (fmap_reverse f). Qed.

End function_records.

(** ** The lookup table only grows *)

Section lookup_table_grows.

Lemma InternString_map_mono (s : string) (c : PprofProfileComputer) :
  string_to_id_ c ⊆ string_to_id_ (InternString s c).2.
Proof.
  unfold InternString. destruct (string_to_id_ c !! s) as [i|] eqn:Hs; simpl.
  - done.
  - by apply insert_subseteq.
Qed.

Lemma InternStrings_map_mono (l : list string) (c : PprofProfileComputer) :
  string_to_id_ c ⊆ string_to_id_ (InternStrings l c).2.
Proof.
  revert c. induction l as [|s l IH]; intros c; [done|]. simpl.
  pose proof (InternString_map_mono s c) as H1.
  destruct (InternString s c) as [i c1]. specialize (IH c1).
  destruct (InternStrings l c1) as [ids c2]. simpl in *. by etrans.
Qed.

Lemma after_prologue_empty_string :
  string_to_id_ after_prologue !! ""%string = Some 0.
Proof. reflexivity. Qed.

End lookup_table_grows.

(** * The claims *)

Section claims.

Variable GetIterator : gmap string Z → list (string * Z).
Hypothesis GetIterator_entries : ∀ m, GetIterator m ≡ₚ map_to_list m.

(** C1: for every field path whose list of sizes is non-empty (and whose
    count and sum fit the [int64_t] values of the profile), [Compute]
    returns a profile whose sample for that path carries exactly the five
    values [n, max(sizes), min(sizes), sorted[n / 2], sum(sizes)], where
    [sorted] is any ascending rearrangement of the sizes and [n / 2] is
    floor division. *)
Theorem C1_sample_values (entries : list (FieldPath * list Z)) :
  Forall (λ e, e.2 ≠ [] ∧ fits_int64 e.2) entries →
  ∃ p entries' c',
    Compute GetIterator entries new_computer = Ok (p, entries', c') ∧
    length (sample p) = length entries ∧
    ∀ k path sizes, entries !! k = Some (path, sizes) →
      ∃ s median,
        sample p !! k = Some s ∧
        (∀ sorted, Sorted Z.le sorted → sorted ≡ₚ sizes →
                   sorted !! (length sizes / 2)%nat = Some median) ∧
        value s = [Z.of_nat (length sizes); max_list sizes; min_list sizes;
                   median; sum_list sizes].
Proof.
  intros Hall.
  destruct (Compute_new_computer GetIterator entries) as (ss & HC & Hss).
  { eapply Forall_impl; [exact Hall|]. by intros e [? _]. }
  eexists _, _, _. split; [exact HC|]. simpl. split.
  { symmetry. by eapply Forall2_length. }
  intros k path sizes Hk.
  destruct (Forall2_lookup_l _ _ _ _ _ Hss Hk) as (s & Hs & _ & Hv).
  rewrite Forall_lookup in Hall. destruct (Hall _ _ Hk) as [Hne Hfit].
  simpl in *. destruct (sample_values_fits sizes Hne Hfit) as (md & Hmd & Hvs).
  exists s, md. split_and!; [done| |].
  - intros sorted Hsorted Hperm.
    by rewrite (std_sort_unique sizes sorted Hsorted Hperm).
  - rewrite Hvs in Hv. by injection Hv as <-.
Qed.

(** C2: [Compute] emits exactly five sample types, which the string table
    resolves to (protos, count), (max_size, bytes), (min_size, bytes),
    (median, bytes), (total_size, bytes) in this order, and the five values
    of every sample stand at the positions of these types: paired
    position by position they read protos = count, max_size = maximum,
    min_size = minimum, median = element [n / 2] of the sorted sizes,
    total_size = sum. *)
Theorem C2_sample_types (entries : list (FieldPath * list Z)) :
  Forall (λ e, e.2 ≠ [] ∧ fits_int64 e.2) entries →
  ∃ p entries' c',
    Compute GetIterator entries new_computer = Ok (p, entries', c') ∧
    map (λ vt, (string_table p !! Z.to_nat (vt_type vt),
                string_table p !! Z.to_nat (vt_unit vt))) (sample_type p) =
      [(Some "protos", Some "count"); (Some "max_size", Some "bytes");
       (Some "min_size", Some "bytes"); (Some "median", Some "bytes");
       (Some "total_size", Some "bytes")]%string ∧
    ∀ k path sizes, entries !! k = Some (path, sizes) →
      ∃ s median,
        sample p !! k = Some s ∧
        std_sort sizes !! (length sizes / 2)%nat = Some median ∧
        zip (map (λ vt, string_table p !! Z.to_nat (vt_type vt))
               (sample_type p)) (value s) =
          [(Some "protos", Z.of_nat (length sizes));
           (Some "max_size", max_list sizes);
           (Some "min_size", min_list sizes);
           (Some "median", median);
           (Some "total_size", sum_list sizes)]%string.
Proof.
  intros Hall.
  destruct (Compute_new_computer GetIterator entries) as (ss & HC & Hss).
  { eapply Forall_impl; [exact Hall|]. by intros e [? _]. }
  eexists _, _, _. split; [exact HC|]. cbn [sample_type sample string_table].
  match goal with |- context [strings_ ?r] => set (table := strings_ r) end.
  assert (strings_ after_prologue `prefix_of` table) as [rest Htable].
  { unfold table. rewrite final_strings, first_seen_app.
    apply (first_seen_prefix (first_seen [] prologue_texts)). }
  rewrite after_prologue_strings in Htable. rewrite Htable.
  split; [reflexivity|].
  intros k path sizes Hk.
  destruct (Forall2_lookup_l _ _ _ _ _ Hss Hk) as (s & Hs & _ & Hv).
  rewrite Forall_lookup in Hall. destruct (Hall _ _ Hk) as [Hne Hfit].
  simpl in Hne, Hfit, Hv.
  destruct (sample_values_fits sizes Hne Hfit) as (md & Hmd & Hvs).
  exists s, md. split_and!; [done|done|].
  rewrite Hvs in Hv. injection Hv as <-. reflexivity.
Qed.

(** C3: the string table of the profile is the table of the interner as it
    stands when [Compute] ends, after every sample, location and function
    record was built; read in id order it lists the texts interned during
    the run (those of the sample types, then the field names in the order
    of the location loop) in first-interned order; and, with room left in
    [int] for the ids, the name of every function record is the position
    in the table of the field name the record stands for. *)
Theorem C3_string_table (entries : list (FieldPath * list Z)) :
  Forall (λ e, e.2 ≠ []) entries →
  ∃ p entries' c',
    Compute GetIterator entries new_computer = Ok (p, entries', c') ∧
    string_table p = strings_ c' ∧
    string_table p =
      first_seen [] (prologue_texts ++ (GetIterator (locations_ c')).*1) ∧
    length (function p) = length (location p) ∧
    (Z.of_nat (length (interned_names entries)) ≤ 2 ^ 31 - 8 →
     Forall2 (λ kv f,
                fn_id f = static_cast_uint64 kv.2 ∧ 0 ≤ fn_name f ∧
                string_table p !! Z.to_nat (fn_name f) = Some kv.1)
       (GetIterator (locations_ c')) (function p)).
Proof.
  intros Hall.
  destruct (Compute_new_computer GetIterator entries Hall)
    as (ss & HC & Hss).
  eexists _, _, _. split; [exact HC|].
  cbn [string_table function location].
  rewrite InternStrings_locations.
  set (c2 := (InternLocations (interned_names entries) after_prologue).2).
  set (its := GetIterator (locations_ c2)).
  assert (8 + Z.of_nat (length its.*1) ≤ 2 ^ 31 →
          Forall2 (λ kv f,
                     fn_id f = static_cast_uint64 kv.2 ∧ 0 ≤ fn_name f ∧
                     strings_ (InternStrings its.*1 c2).2
                       !! Z.to_nat (fn_name f) = Some kv.1)
            its (zip_with function_record its (InternStrings its.*1 c2).1))
    as Hfns.
  { intros Hlen. apply function_records_resolve.
    by apply function_names_resolve. }
  split_and!; [done|apply final_strings| |].
  - rewrite length_zip_with, length_map, InternStrings_length, length_fmap. lia.
  - intros Hlen. apply Hfns. rewrite length_fmap. unfold its.
    rewrite (GetIterator_length GetIterator GetIterator_entries).
    pose proof (InternLocations_size (interned_names entries) after_prologue)
      as Hsize.
    fold c2 in Hsize. rewrite after_prologue_locations, map_size_empty in Hsize.
    change (2 ^ 31) with 2147483648 in *. lia.
Qed.

(** C4: on a new computer the first thing [Compute] interns is the empty
    string, which receives id 0 and opens the string table: [Compute] on a
    new computer never fails the check, and when every entry has a sample it
    returns a profile whose string table has the empty string at position
    0, the lookup table of the computer mapping the empty string to 0; from
    any state of the computer, a first [InternString("")] that returns
    another id makes [Compute] fail fatally, so [Compute] never goes on with
    a non-zero id. *)
Theorem C4_empty_string_first (entries : list (FieldPath * list Z))
    (c : PprofProfileComputer) :
  InternString "" new_computer =
    (0, {| strings_ := [""%string];
           string_to_id_ := {[ ""%string := 0 ]};
           locations_ := ∅ |}) ∧
  ((InternString "" c).1 ≠ 0 → Compute GetIterator entries c = Fatal) ∧
  (∀ r, Compute GetIterator entries c = Ok r → (InternString "" c).1 = 0) ∧
  (∀ p entries' c',
     Compute GetIterator entries new_computer = Ok (p, entries', c') →
     string_table p !! 0%nat = Some ""%string) ∧
  Compute GetIterator entries new_computer ≠ Fatal ∧
  (Forall (λ e, e.2 ≠ []) entries →
   ∃ p entries' c',
     Compute GetIterator entries new_computer = Ok (p, entries', c') ∧
     string_table p !! 0%nat = Some ""%string ∧
     strings_ c' !! 0%nat = Some ""%string ∧
     string_to_id_ c' !! ""%string = Some 0).
Proof.
  assert ((InternString "" c).1 ≠ 0 → Compute GetIterator entries c = Fatal)
    as Hfatal.
  { intros Hne. unfold Compute. destruct (InternString "" c) as [id0 c0].
    simpl in Hne. by rewrite bool_decide_eq_false_2 by done. }
  assert (Forall (λ e : FieldPath * list Z, e.2 ≠ []) entries →
          ∃ p entries' c',
            Compute GetIterator entries new_computer = Ok (p, entries', c') ∧
            string_table p !! 0%nat = Some ""%string ∧
            strings_ c' !! 0%nat = Some ""%string ∧
            string_to_id_ c' !! ""%string = Some 0) as Hok.
  { intros Hall.
    destruct (Compute_new_computer GetIterator entries Hall)
      as (ss & HC' & _).
    eexists _, _, _. split; [exact HC'|]. cbn [string_table]. clear HC'.
    assert (strings_
              (InternStrings
                 (GetIterator
                    (locations_
                       (InternLocations (interned_names entries)
                          after_prologue).2)).*1
                 (InternLocations (interned_names entries)
                    after_prologue).2).2 !! 0%nat = Some ""%string) as Hfirst.
    { rewrite final_strings, first_seen_app.
      eapply prefix_lookup_Some;
        [|apply (first_seen_prefix (first_seen [] prologue_texts))].
      reflexivity. }
    split_and!; [exact Hfirst|exact Hfirst|].
    eapply lookup_weaken; [|apply InternStrings_map_mono].
    destruct (InternLocations_strings (interned_names entries)
                after_prologue) as [_ ->].
    exact after_prologue_empty_string. }
  assert (Compute GetIterator entries new_computer ≠ Fatal) as Hnew.
  { destruct (decide (Forall (λ e : FieldPath * list Z, e.2 ≠ []) entries))
      as [Hall|Hnot].
    - destruct (Hok Hall) as (p & e' & c' & -> & _). discriminate.
    - rewrite (Compute_new_computer_empty GetIterator entries);
        [discriminate|].
      apply (not_Forall_Exists _) in Hnot.
      eapply Exists_impl; [exact Hnot|]. intros e He. simpl in He.
      destruct (e.2); [done|]. by exfalso; apply He. }
  split_and!; [reflexivity|done| | |exact Hnew|exact Hok].
  - intros r Hr. destruct (decide ((InternString "" c).1 = 0)) as [|Hne];
      [done|]. by rewrite Hfatal in Hr.
  - intros p entries' c' HC.
    assert (Forall (λ e : FieldPath * list Z, e.2 ≠ []) entries) as Hall.
    { apply Forall_forall. intros e He Hempty.
      rewrite (Compute_new_computer_empty GetIterator entries) in HC; [done|].
      apply Exists_exists. eauto. }
    destruct (Compute_new_computer GetIterator entries Hall)
      as (ss & HC' & _).
    rewrite HC' in HC. injection HC as <- _ _. cbn [string_table].
    rewrite final_strings, first_seen_app.
    eapply prefix_lookup_Some;
      [|apply (first_seen_prefix (first_seen [] prologue_texts))].
    reflexivity.
Qed.

(** C5: location ids are handed out sequentially from 1 in first-seen
    order: after any run of calls on a new computer, the k-th distinct
    field name (counting from 1) has id k; every call returns the id of
    its name, which is at least 1 and so never 0; and interning a name
    again returns the id it already has and changes nothing. *)
Theorem C5_location_ids (l : list string) :
  Z.of_nat (length l) ≤ INT_MAX →
  let ids := (InternLocations l new_computer).1 in
  let c' := (InternLocations l new_computer).2 in
  (∀ (k : nat) s, first_seen [] l !! k = Some s →
                  locations_ c' !! s = Some (Z.of_nat k + 1)) ∧
  Forall2 (λ s i, locations_ c' !! s = Some i ∧ 1 ≤ i ∧ i ≠ 0) l ids ∧
  (∀ s, s ∈ l → InternLocation s c' = (location_of c' s, c')).
Proof.
  intros Hlen ids c'.
  pose proof (InternLocations_locations_inv l [] new_computer
                locations_inv_new) as (Hnd & Hsize & Hinv); [simpl; lia|].
  fold c' in Hsize, Hinv.
  destruct (InternLocations_recorded l new_computer) as [_ Hrec].
  fold c' ids in Hrec. split_and!.
  - intros k s Hk. apply Hinv. split; [lia|].
    by replace (Z.to_nat (Z.of_nat k + 1 - 1)) with k by lia.
  - eapply Forall2_impl; [exact Hrec|]. intros s i Hs. simpl in Hs.
    apply Hinv in Hs as Hs'. destruct Hs' as [Hi _]. split_and!; [done|lia|lia].
  - intros s [k Hk]%list_elem_of_lookup_1.
    destruct (Forall2_lookup_l _ _ _ _ _ Hrec Hk) as (i & _ & Hi).
    simpl in Hi. unfold location_of. rewrite Hi. simpl.
    by apply InternLocation_known.
Qed.

(** C6: the location stack of every sample is its field path reversed,
    leaf first: the id of the deepest field at position 0 and the id of
    the root field last. For the sample set [{["a","b"]: [5]}] the single
    sample has the stack [id("b"), id("a")] and the values
    [1, 5, 5, 5, 5]. *)
Theorem C6_leaf_first :
  (∀ entries : list (FieldPath * list Z),
     Forall (λ e, e.2 ≠ []) entries →
     ∃ p entries' c',
       Compute GetIterator entries new_computer = Ok (p, entries', c') ∧
       Forall2 (λ e s, location_id s = reverse (map (location_of c') e.1))
         entries (sample p)) ∧
  (∃ p entries' c',
     Compute GetIterator [(["a"; "b"]%string, [5])] new_computer =
       Ok (p, entries', c') ∧
     sample p =
       [ {| location_id := [location_of c' "b"; location_of c' "a"];
            value := [1; 5; 5; 5; 5] |} ] ∧
     location_of c' "b" = 1 ∧ location_of c' "a" = 2).
Proof.
  assert (∀ entries : list (FieldPath * list Z),
     Forall (λ e, e.2 ≠ []) entries →
     ∃ p entries' c',
       Compute GetIterator entries new_computer = Ok (p, entries', c') ∧
       Forall2 (λ e s, location_id s = reverse (map (location_of c') e.1) ∧
                       sample_values (std_sort e.2) = Ok (value s))
         entries (sample p) ∧
       locations_ c' =
         locations_ (InternLocations (interned_names entries)
                       after_prologue).2) as Hgen.
  { intros entries Hall.
    destruct (Compute_new_computer GetIterator entries Hall)
      as (ss & HC & Hss).
    eexists _, _, _. split; [exact HC|]. cbn [sample].
    split; [|apply InternStrings_locations].
    eapply Forall2_impl; [exact Hss|]. intros e s [Hloc Hv]. split; [|done].
    rewrite Hloc, map_reverse. unfold location_of.
    by rewrite InternStrings_locations. }
  split.
  - intros entries Hall. destruct (Hgen entries Hall) as (p & e' & c' & HC & Hss & _).
    exists p, e', c'. split; [done|].
    eapply Forall2_impl; [exact Hss|]. by intros e s [? _].
  - destruct (Hgen [(["a"; "b"]%string, [5])]) as (p & e' & c' & HC & Hss & Hlocs).
    { by repeat constructor. }
    exists p, e', c'. split; [done|].
    assert (location_of c' "b" = 1 ∧ location_of c' "a" = 2) as [Hb Ha].
    { unfold location_of. rewrite Hlocs. clear. split; reflexivity. }
    split_and!; [|done|done].
    apply Forall2_cons_inv_l in Hss as (s & ss & [Hloc Hv] & Hnil & ->).
    apply Forall2_nil_inv_l in Hnil as ->.
    destruct s as [locs vs]. simpl in *. subst locs.
    change (sample_values (std_sort [5])) with (Ok [1; 5; 5; 5; 5]) in Hv.
    by injection Hv as <-.
Qed.


(** C8: string interning is idempotent and injective within a run: in any
    run of calls (from a state of the computer reached by interning, with
    room left in [int]), two calls return the same id exactly when their
    texts are the same, and a text seen for the first time receives the
    next sequential id, the number of texts interned before it. *)
Theorem C8_intern_string (c : PprofProfileComputer) (l : list string) :
  strings_inv c →
  Z.of_nat (length (strings_ c)) + Z.of_nat (length l) ≤ 2 ^ 31 →
  let ids := (InternStrings l c).1 in
  length ids = length l ∧
  (∀ (p q : nat) A B i j,
     l !! p = Some A → l !! q = Some B →
     ids !! p = Some i → ids !! q = Some j →
     (i = j ↔ A = B)) ∧
  (∀ (p : nat) s,
     l !! p = Some s → s ∉ first_seen (strings_ c) (take p l) →
     ids !! p =
       Some (Z.of_nat (length (first_seen (strings_ c) (take p l))))).
Proof.
  intros Hinv Hlen ids.
  pose proof (InternStrings_strings_inv l c Hinv Hlen) as Hrun.
  pose proof (InternStrings_length l c) as Hlength. fold ids in Hlength.
  split_and!; [done| |].
  - unfold ids. destruct (InternStrings l c) as [ids' c']. simpl.
    destruct Hrun as ([Hnd _] & _ & Hall).
    intros p q A B i j HA HB Hi Hj.
    destruct (Forall2_lookup_l _ _ _ _ _ Hall HA) as (i' & Hi' & Hi0 & HiA).
    destruct (Forall2_lookup_l _ _ _ _ _ Hall HB) as (j' & Hj' & Hj0 & HjB).
    simplify_eq. split.
    + intros ->. congruence.
    + intros ->. pose proof (NoDup_lookup _ _ _ _ Hnd HiA HjB). lia.
  - intros p s Hp Hnew.
    pose proof (take_drop_middle l p s Hp) as Hsplit.
    pose proof (lookup_lt_Some _ _ _ Hp) as Hplt.
    assert (length (take p l) = p) as Htake by (rewrite length_take; lia).
    pose proof (InternStrings_strings_inv (take p l) c Hinv) as Hpre.
    pose proof (InternStrings_length (take p l) c) as Hprelen.
    unfold ids. rewrite <-Hsplit at 1. rewrite InternStrings_app.
    destruct (InternStrings (take p l) c) as [ids1 c1].
    destruct Hpre as (Hinv1 & Hs1 & _); [lia|].
    simpl in Hprelen. simpl.
    pose proof (InternString_strings_inv s c1 Hinv1) as Hstep.
    pose proof (first_seen_length (strings_ c) (take p l)) as Hfl.
    assert (string_to_id_ c1 !! s = None) as Hnone.
    { destruct (string_to_id_ c1 !! s) as [i|] eqn:Hs; [|done].
      exfalso. apply Hnew. rewrite <-Hs1.
      apply (strings_inv_dom c1 Hinv1). eauto. }
    destruct (InternString_fresh s c1 Hnone) as [_ Hid].
    destruct (InternString s c1) as [i c2]. simpl in Hid.
    destruct (InternStrings (drop (S p) l) c2) as [ids2 c3]. simpl.
    rewrite lookup_app_r by lia.
    replace (p - length ids1)%nat with 0%nat by lia. simpl. f_equal.
    rewrite Hid, length_app, Nat.add_1_r, new_string_id, Hs1; [done|].
    rewrite Hs1. lia.
Qed.

(** C9 (as amended): [Compute] has no check for an entry without samples.
    On a sample set with such an entry it passes the check on the empty
    string and then indexes the empty vector at [count - 1], an access
    outside the vector whose behaviour is undefined: the run has no
    defined result, and no fatal failure is raised. *)
Theorem C9_empty_sizes_undefined (entries : list (FieldPath * list Z)) :
  Exists (λ e, e.2 = []) entries →
  Compute GetIterator entries new_computer = Undefined ∧
  Compute GetIterator entries new_computer ≠ Fatal.
Proof.
  intros Hex. rewrite (Compute_new_computer_empty GetIterator entries Hex).
  by split.
Qed.

(** C10: [Compute] never changes the field paths that key the sample set:
    whenever it returns, from any state of the computer, the mapping holds
    the same keys in the same places, and each list of sizes is a
    rearrangement (the ascending one) of what it was; and it does return
    on a new computer when every entry has a sample. *)
Theorem C10_keys_unchanged (entries : list (FieldPath * list Z))
    (c : PprofProfileComputer) :
  (∀ p entries' c',
     Compute GetIterator entries c = Ok (p, entries', c') →
     entries'.*1 = entries.*1 ∧
     Forall2 (λ e e', e'.1 = e.1 ∧ e'.2 ≡ₚ e.2 ∧ Sorted Z.le e'.2)
       entries entries') ∧
  (Forall (λ e, e.2 ≠ []) entries →
   ∃ r, Compute GetIterator entries new_computer = Ok r).
Proof.
  split.
  - intros p entries' c' HC. unfold Compute in HC.
    destruct (InternString "" c) as [id0 c0].
    destruct (bool_decide (id0 = 0)); [|done]. cbn [PERFETTO_CHECK obind] in HC.
    destruct (add_sample_types sample_type_decls c0) as [vts c1].
    destruct (sample_loop entries c1) as [[[ss e'] c2]| |] eqn:Hloop;
      [|done|done].
    cbn [obind] in HC.
    destruct (location_loop (GetIterator (locations_ c2)) c2)
      as [[locs fns] c3].
    injection HC as <- <- <-.
    pose proof (sample_loop_Ok_inv _ _ _ Hloop) as Hall.
    destruct (sample_loop_nonempty entries c1 Hall) as (ss' & Hloop' & _).
    rewrite Hloop' in Hloop. injection Hloop as -> <- _.
    split.
    + clear. induction entries as [|e entries IH]; [done|].
      simpl. f_equal. exact IH.
    + clear. induction entries as [|e entries IH]; [constructor|].
      simpl. constructor; [|done]. simpl. split_and!; [done| |].
      * apply std_sort_Permutation.
      * apply StronglySorted_Sorted, std_sort_sorted.
  - intros Hall.
    destruct (Compute_new_computer GetIterator entries Hall) as (ss & HC & _).
    eauto.
Qed.

End claims.

(** * The claims on concrete sample sets *)

(** [map_to_list] is one admissible iteration order. *)
Lemma map_to_list_entries (m : gmap string Z) : map_to_list m ≡ₚ map_to_list m.
Proof. reflexivity. Defined.

(** C1 on [{["a"]: [10, 30, 20]}]: the values are [3, 30, 10, 20, 60]. *)
Lemma C1_sample_values_witness :
  Forall (λ e : FieldPath * list Z, e.2 ≠ [] ∧ fits_int64 e.2)
    [(["a"]%string, [10; 30; 20])] ∧
  ∃ p entries' c' s,
    Compute map_to_list [(["a"]%string, [10; 30; 20])] new_computer =
      Ok (p, entries', c') ∧
    sample p !! 0%nat = Some s ∧ value s = [3; 30; 10; 20; 60].
Proof.
  assert (Forall (λ e : FieldPath * list Z, e.2 ≠ [] ∧ fits_int64 e.2)
            [(["a"]%string, [10; 30; 20])]) as H by solve_fits.
  split; [exact H|].
  destruct (C1_sample_values map_to_list _ H) as (p & e' & c' & HC & _ & Hv).
  destruct (Hv 0%nat _ _ eq_refl) as (s & md & Hs & Hmd & Hval).
  exists p, e', c', s. split_and!; [done|done|].
  specialize (Hmd [10; 20; 30]). simpl in Hmd.
  rewrite Hval. injection Hmd as <-; [done| |].
  - repeat constructor; lia.
  - apply perm_skip, perm_swap.
Defined.

(** C2 on the same sample set. *)
Lemma C2_sample_types_witness :
  Forall (λ e : FieldPath * list Z, e.2 ≠ [] ∧ fits_int64 e.2)
    [(["a"]%string, [10; 30; 20])] ∧
  ∃ p entries' c',
    Compute map_to_list [(["a"]%string, [10; 30; 20])] new_computer =
      Ok (p, entries', c') ∧
    map (λ vt, string_table p !! Z.to_nat (vt_type vt)) (sample_type p) =
      [Some "protos"; Some "max_size"; Some "min_size"; Some "median";
       Some "total_size"]%string.
Proof.
  assert (Forall (λ e : FieldPath * list Z, e.2 ≠ [] ∧ fits_int64 e.2)
            [(["a"]%string, [10; 30; 20])]) as H by solve_fits.
  split; [exact H|].
  destruct (C2_sample_types map_to_list _ H) as (p & e' & c' & HC & Hty & _).
  exists p, e', c'. split; [done|].
  destruct (sample_type p) as [|t1 [|t2 [|t3 [|t4 [|t5 [|t6 ts]]]]]];
    try discriminate Hty.
  simpl in *. by injection Hty as -> _ -> _ -> _ -> _ -> _.
Defined.

(** C3 on [{["a","b"]: [5]}]. *)
Lemma C3_string_table_witness :
  Forall (λ e : FieldPath * list Z, e.2 ≠ []) [(["a"; "b"]%string, [5])] ∧
  ∃ p entries' c',
    Compute map_to_list [(["a"; "b"]%string, [5])] new_computer =
      Ok (p, entries', c') ∧
    string_table p = strings_ c' ∧
    Forall2 (λ kv f, string_table p !! Z.to_nat (fn_name f) = Some kv.1)
      (map_to_list (locations_ c')) (function p).
Proof.
  assert (Forall (λ e : FieldPath * list Z, e.2 ≠ [])
            [(["a"; "b"]%string, [5])]) as H by solve_fits.
  split; [exact H|].
  destruct (C3_string_table map_to_list map_to_list_entries _ H)
    as (p & e' & c' & HC & Htab & _ & _ & Hfn).
  exists p, e', c'. split_and!; [done|done|].
  eapply Forall2_impl; [apply Hfn|].
  - vm_compute. discriminate.
  - by intros kv f (_ & _ & ?).
Defined.

(** C4 on a computer whose table already starts with another text, and on
    a new computer with [{["a"]: [1]}]. *)
Lemma C4_empty_string_first_witness :
  ((InternString ""
      {| strings_ := ["x"%string];
         string_to_id_ := {[ "x"%string := 0 ]};
         locations_ := ∅ |}).1 ≠ 0 ∧
   Compute map_to_list [(["a"]%string, [1])]
     {| strings_ := ["x"%string];
        string_to_id_ := {[ "x"%string := 0 ]};
        locations_ := ∅ |} = Fatal) ∧
  (Forall (λ e : FieldPath * list Z, e.2 ≠ []) [(["a"]%string, [1])] ∧
   ∃ p entries' c',
     Compute map_to_list [(["a"]%string, [1])] new_computer =
       Ok (p, entries', c') ∧
     string_table p !! 0%nat = Some ""%string ∧
     strings_ c' !! 0%nat = Some ""%string ∧
     string_to_id_ c' !! ""%string = Some 0).
Proof.
  assert ((InternString ""
             {| strings_ := ["x"%string];
                string_to_id_ := {[ "x"%string := 0 ]};
                locations_ := ∅ |}).1 ≠ 0) as H.
  { vm_compute. discriminate. }
  assert (Forall (λ e : FieldPath * list Z, e.2 ≠ [])
            [(["a"]%string, [1])]) as Hall by solve_fits.
  split.
  - split; [exact H|].
    exact (proj1 (proj2 (C4_empty_string_first map_to_list _ _)) H).
  - split; [exact Hall|].
    exact (proj2 (proj2 (proj2 (proj2 (proj2
             (C4_empty_string_first map_to_list _ new_computer))))) Hall).
Defined.

(** C5 on the names of [["a","b"]] and [["b"]], leaf first. *)
Lemma C5_location_ids_witness :
  Z.of_nat (length (["b"; "a"; "b"]%string : list string)) ≤ INT_MAX ∧
  (InternLocations ["b"; "a"; "b"]%string new_computer).1 = [1; 2; 1] ∧
  Forall2 (λ s i,
             locations_ (InternLocations ["b"; "a"; "b"]%string
                           new_computer).2 !! s = Some i ∧ 1 ≤ i ∧ i ≠ 0)
    ["b"; "a"; "b"]%string
    (InternLocations ["b"; "a"; "b"]%string new_computer).1.
Proof.
  assert (Z.of_nat (length (["b"; "a"; "b"]%string : list string)) ≤ INT_MAX)
    as H by (vm_compute; discriminate).
  split; [exact H|]. split; [reflexivity|].
  exact (proj1 (proj2 (C5_location_ids _ H))).
Defined.

(** C6 on [{["a","b"]: [5]}]. *)
Lemma C6_leaf_first_witness :
  Forall (λ e : FieldPath * list Z, e.2 ≠ []) [(["a"; "b"]%string, [5])] ∧
  ∃ p entries' c',
    Compute map_to_list [(["a"; "b"]%string, [5])] new_computer =
      Ok (p, entries', c') ∧
    Forall2 (λ e s, location_id s = reverse (map (location_of c') e.1))
      [(["a"; "b"]%string, [5])] (sample p).
Proof.
  assert (Forall (λ e : FieldPath * list Z, e.2 ≠ [])
            [(["a"; "b"]%string, [5])]) as H by solve_fits.
  split; [exact H|].
  exact (proj1 (C6_leaf_first map_to_list) _ H).
Defined.


(** C8 on a new computer and the texts ["a"], ["b"], ["a"]. *)
Lemma C8_intern_string_witness :
  strings_inv new_computer ∧
  Z.of_nat (length (strings_ new_computer)) +
    Z.of_nat (length (["a"; "b"; "a"]%string : list string)) ≤ 2 ^ 31 ∧
  (InternStrings ["a"; "b"; "a"]%string new_computer).1 = [0; 1; 0] ∧
  ∀ (p q : nat) A B i j,
    (["a"; "b"; "a"]%string : list string) !! p = Some A →
    (["a"; "b"; "a"]%string : list string) !! q = Some B →
    (InternStrings ["a"; "b"; "a"]%string new_computer).1 !! p = Some i →
    (InternStrings ["a"; "b"; "a"]%string new_computer).1 !! q = Some j →
    (i = j ↔ A = B).
Proof.
  assert (Z.of_nat (length (strings_ new_computer)) +
            Z.of_nat (length (["a"; "b"; "a"]%string : list string)) ≤ 2 ^ 31)
    as H by (vm_compute; discriminate).
  split; [exact strings_inv_new|]. split; [exact H|]. split; [reflexivity|].
  exact (proj1 (proj2 (C8_intern_string new_computer _ strings_inv_new H))).
Defined.

(** C9 (as amended) on [{["a"]: []}]. *)
Lemma C9_empty_sizes_undefined_witness :
  Exists (λ e : FieldPath * list Z, e.2 = []) [(["a"]%string, [])] ∧
  Compute map_to_list [(["a"]%string, [])] new_computer = Undefined.
Proof.
  assert (Exists (λ e : FieldPath * list Z, e.2 = []) [(["a"]%string, [])])
    as H by (by constructor).
  split; [exact H|].
  exact (proj1 (C9_empty_sizes_undefined map_to_list _ H)).
Defined.

(** C9 as stated fails: on [{["a"]: []}] the run does not end in the fatal
    failure of a check. *)
Lemma C9_counterexample :
  Exists (λ e : FieldPath * list Z, e.2 = []) [(["a"]%string, [])] ∧
  Compute map_to_list [(["a"]%string, [])] new_computer ≠ Fatal.
Proof.
  split; [by constructor|]. vm_compute. discriminate.
Qed.

(** C10 on [{["a"]: [10, 30, 20]}]: the key stays, the sizes are sorted. *)
Lemma C10_keys_unchanged_witness :
  Forall (λ e : FieldPath * list Z, e.2 ≠ []) [(["a"]%string, [10; 30; 20])] ∧
  ∃ p entries' c',
    Compute map_to_list [(["a"]%string, [10; 30; 20])] new_computer =
      Ok (p, entries', c') ∧
    entries'.*1 = [["a"]%string].
Proof.
  assert (Forall (λ e : FieldPath * list Z, e.2 ≠ [])
            [(["a"]%string, [10; 30; 20])]) as H by solve_fits.
  split; [exact H|].
  destruct (proj2 (C10_keys_unchanged map_to_list _ new_computer) H)
    as [[[p e'] c'] HC].
  exists p, e', c'. split; [done|].
  exact (proj1 (proj1 (C10_keys_unchanged map_to_list _ new_computer)
                  _ _ _ HC)).
Defined.


(** * Further properties of [Compute] *)

Section outcomes.

Variable GetIterator : gmap string Z → list (string * Z).

Lemma sample_loop_never_Fatal (entries : list (FieldPath * list Z)) c :
  sample_loop entries c ≠ Fatal.
Proof.
  destruct (decide (Forall (λ e : FieldPath * list Z, e.2 ≠ []) entries))
    as [Hall|Hnot].
  - destruct (sample_loop_nonempty entries c Hall) as (ss & -> & _). done.
  - rewrite sample_loop_empty; [done|].
    apply (not_Forall_Exists _) in Hnot.
    eapply Exists_impl; [exact Hnot|]. intros e He. simpl in He.
    destruct (e.2); [done|]. by exfalso; apply He.
Qed.

(** X1: how a run of [Compute] ends, from any state of the computer. It
    fails fatally exactly when the first [InternString("")] does not return
    0; it runs into the undefined read of an empty vector exactly when that
    check passes and some entry has no samples; and it returns a profile
    exactly when the check passes and every entry has a sample. *)
Theorem X1_Compute_outcome (entries : list (FieldPath * list Z))
    (c : PprofProfileComputer) :
  (Compute GetIterator entries c = Fatal ↔ (InternString "" c).1 ≠ 0) ∧
  (Compute GetIterator entries c = Undefined ↔
     (InternString "" c).1 = 0 ∧ Exists (λ e, e.2 = []) entries) ∧
  ((∃ r, Compute GetIterator entries c = Ok r) ↔
     (InternString "" c).1 = 0 ∧ Forall (λ e, e.2 ≠ []) entries).
Proof.
  unfold Compute. destruct (InternString "" c) as [id0 c0]. cbn [fst].
  destruct (decide (id0 = 0)) as [->|Hne].
  - rewrite bool_decide_eq_true_2 by done. cbn [PERFETTO_CHECK obind].
    destruct (add_sample_types sample_type_decls c0) as [vts c1].
    destruct (decide (Forall (λ e : FieldPath * list Z, e.2 ≠ []) entries))
      as [Hall|Hnot].
    + destruct (sample_loop_nonempty entries c1 Hall) as (ss & -> & _).
      cbn [obind].
      destruct (location_loop _ _) as [[locs fns] c3].
      split_and!.
      * split; [done|]. by intros ?.
      * split; [done|]. intros [_ Hex].
        apply Exists_exists in Hex as (e & He & Hempty).
        rewrite Forall_forall in Hall. by destruct (Hall e He).
      * split; [done|]. intros _. eauto.
    + assert (Exists (λ e : FieldPath * list Z, e.2 = []) entries) as Hex.
      { apply (not_Forall_Exists _) in Hnot.
        eapply Exists_impl; [exact Hnot|]. intros e He. simpl in He.
        destruct (e.2); [done|]. by exfalso; apply He. }
      rewrite sample_loop_empty by done. cbn [obind].
      split_and!.
      * split; [done|]. by intros ?.
      * done.
      * split; [by intros [r ?]|]. by intros [_ ?].
  - rewrite bool_decide_eq_false_2 by done. cbn [PERFETTO_CHECK obind].
    split_and!.
    + done.
    + split; [done|]. by intros [? _].
    + split; [by intros [r ?]|]. by intros [? _].
Qed.

Lemma std_sort_Permutation_eq (v1 v2 : list Z) :
  v1 ≡ₚ v2 → std_sort v1 = std_sort v2.
Proof.
  intros Hp. apply std_sort_unique.
  - apply StronglySorted_Sorted, std_sort_sorted.
  - by rewrite std_sort_Permutation.
Qed.

Lemma emit_sample_Permutation path (v1 v2 : list Z) c :
  v1 ≡ₚ v2 → emit_sample path v1 c = emit_sample path v2 c.
Proof.
  intros Hp. unfold emit_sample. by rewrite (std_sort_Permutation_eq v1 v2 Hp).
Qed.

(** X2: the result of [Compute] does not depend on the order in which the
    sizes of an entry are listed: two sample sets with the same paths in the
    same places, whose lists of sizes are rearrangements of each other, give
    the same outcome (profile, mapping left behind and computer). *)
Theorem X2_order_of_sizes (entries1 entries2 : list (FieldPath * list Z))
    (c : PprofProfileComputer) :
  Forall2 (λ e1 e2, e1.1 = e2.1 ∧ e1.2 ≡ₚ e2.2) entries1 entries2 →
  Compute GetIterator entries1 c = Compute GetIterator entries2 c.
Proof.
  intros Hall.
  assert (∀ c1, sample_loop entries1 c1 = sample_loop entries2 c1) as Hloop.
  { induction Hall as [|[p1 v1] [p2 v2] es1 es2 [Hp Hv] Hall IH]; intros c1;
      [done|].
    simpl in *. subst p2. rewrite (emit_sample_Permutation p1 v1 v2 c1 Hv).
    destruct (emit_sample p1 v2 c1) as [[[s v'] c2]| |]; [|done|done].
    cbn [obind]. by rewrite IH. }
  unfold Compute. destruct (InternString "" c) as [id0 c0].
  destruct (PERFETTO_CHECK (bool_decide (id0 = 0))); [|done|done].
  cbn [obind]. destruct (add_sample_types sample_type_decls c0) as [vts c1].
  by rewrite Hloop.
Qed.

End outcomes.

(** X2 on [{["a"]: [10, 30, 20]}] and [{["a"]: [20, 10, 30]}]. *)
Lemma X2_order_of_sizes_witness :
  Compute map_to_list [(["a"]%string, [10; 30; 20])] new_computer =
  Compute map_to_list [(["a"]%string, [20; 10; 30])] new_computer.
Proof.
  apply (X2_order_of_sizes map_to_list). constructor; [|constructor].
  split; [reflexivity|]. simpl.
  etrans; [apply perm_skip, perm_swap|]. apply perm_swap.
Defined.

Section values.

Variable GetIterator : gmap string Z → list (string * Z).

(** The values read from the sorted vector, with every conversion kept. *)
Lemma sample_values_wrapping (sizes : list Z) :
  sizes ≠ [] → Z.of_nat (length sizes) < 2 ^ 64 →
  ∃ median,
    std_sort sizes !! (length sizes / 2)%nat = Some median ∧
    sample_values (std_sort sizes) =
      Ok [static_cast_int64 (Z.of_nat (length sizes));
          static_cast_int64 (max_list sizes);
          static_cast_int64 (min_list sizes);
          static_cast_int64 median;
          static_cast_int64 (wrap_unsigned 64 (sum_list sizes))].
Proof.
  intros Hne Hlen.
  assert (std_sort sizes ≠ []) as Hne' by (by intros ?%std_sort_nil_inv).
  destruct (sample_values_nonempty _ Hne')
    as (mx & mn & md & Hmx & Hmn & Hmd & ->).
  rewrite std_sort_length in *.
  assert (0 < Z.of_nat (length sizes)) as Hn
    by (destruct sizes; [done|simpl; lia]).
  rewrite size_t_sub_id in Hmx by lia.
  replace (Z.to_nat (Z.of_nat (length sizes) - 1))
    with (length sizes - 1)%nat in Hmx by lia.
  replace (Z.to_nat (Z.of_nat (length sizes) / 2))
    with (length sizes / 2)%nat in Hmd
    by (rewrite <-(Nat2Z.id (length sizes / 2)); f_equal;
        by rewrite Nat2Z.inj_div).
  exists md. split; [done|].
  rewrite (sorted_last_max _ _ Hne Hmx), (sorted_first_min _ _ Hne Hmn).
  do 6 f_equal.
  rewrite total_size_loop by (by right). rewrite Z.add_0_l.
  by rewrite (sum_list_Permutation _ _ (std_sort_Permutation sizes)).
Qed.

(** X3: the five values as the machine computes them. For every entry with
    at least one sample, the sample carries the count, the maximum, the
    minimum and the element at [n / 2] of the sorted sizes, each converted
    from [size_t] to [int64_t], and the total is the sum of the sizes
    reduced modulo [2 ^ 64] before that conversion: sizes that add up to
    [2 ^ 64] give the total 0, and a size of [2 ^ 63] reads as a negative
    value. *)
Theorem X3_values_wrap (entries : list (FieldPath * list Z)) :
  Forall (λ e, e.2 ≠ [] ∧ Z.of_nat (length e.2) < 2 ^ 64) entries →
  ∃ p entries' c',
    Compute GetIterator entries new_computer = Ok (p, entries', c') ∧
    ∀ k path sizes, entries !! k = Some (path, sizes) →
      ∃ s median,
        sample p !! k = Some s ∧
        std_sort sizes !! (length sizes / 2)%nat = Some median ∧
        value s =
          [static_cast_int64 (Z.of_nat (length sizes));
           static_cast_int64 (max_list sizes);
           static_cast_int64 (min_list sizes);
           static_cast_int64 median;
           static_cast_int64 (sum_list sizes mod 2 ^ 64)].
Proof.
  intros Hall.
  destruct (Compute_new_computer GetIterator entries) as (ss & HC & Hss).
  { eapply Forall_impl; [exact Hall|]. by intros e [? _]. }
  eexists _, _, _. split; [exact HC|]. cbn [sample].
  intros k path sizes Hk.
  destruct (Forall2_lookup_l _ _ _ _ _ Hss Hk) as (s & Hs & _ & Hv).
  rewrite Forall_lookup in Hall. destruct (Hall _ _ Hk) as [Hne Hlen].
  cbn [fst snd] in Hne, Hlen, Hv.
  destruct (sample_values_wrapping sizes Hne Hlen) as (md & Hmd & Hvs).
  exists s, md. split_and!; [exact Hs|exact Hmd|].
  rewrite Hvs in Hv. injection Hv as <-. reflexivity.
Qed.

Lemma sum_list_between (l : list Z) lo hi :
  (∀ x, x ∈ l → lo ≤ x ≤ hi) →
  Z.of_nat (length l) * lo ≤ sum_list l ≤ Z.of_nat (length l) * hi.
Proof.
  induction l as [|y l IH]; intros Hl; unfold sum_list in *; simpl; [lia|].
  assert (lo ≤ y ≤ hi) by (apply Hl; by left).
  destruct IH as [IH1 IH2]; [intros x Hx; apply Hl; by right|]. lia.
Qed.

(** X4: the five values of a sample are consistent with each other. When
    nothing wraps, the count is at least 1, the values satisfy
    [0 <= min <= median <= max <= total], and the total lies between
    [count * min] and [count * max]. *)
Theorem X4_values_ordered (entries : list (FieldPath * list Z)) :
  Forall (λ e, e.2 ≠ [] ∧ fits_int64 e.2) entries →
  ∃ p entries' c',
    Compute GetIterator entries new_computer = Ok (p, entries', c') ∧
    Forall (λ s, ∃ count max_size min_size median_size total_size,
                 value s = [count; max_size; min_size; median_size;
                            total_size] ∧
                 1 ≤ count ∧
                 0 ≤ min_size ∧ min_size ≤ median_size ∧
                 median_size ≤ max_size ∧ max_size ≤ total_size ∧
                 count * min_size ≤ total_size ∧
                 total_size ≤ count * max_size) (sample p).
Proof.
  intros Hall.
  destruct (Compute_new_computer GetIterator entries) as (ss & HC & Hss).
  { eapply Forall_impl; [exact Hall|]. by intros e [? _]. }
  eexists _, _, _. split; [exact HC|]. cbn [sample].
  apply Forall_lookup. intros k s Hs.
  destruct (Forall2_lookup_r _ _ _ _ _ Hss Hs) as ([path sizes] & Hk & _ & Hv).
  rewrite Forall_lookup in Hall. destruct (Hall _ _ Hk) as [Hne Hfit].
  cbn [fst snd] in Hne, Hfit, Hv.
  destruct (sample_values_fits sizes Hne Hfit) as (md & Hmd & Hvs).
  rewrite Hvs in Hv. injection Hv as <-.
  destruct Hfit as (Hpos & _ & _).
  destruct sizes as [|x sizes]; [done|].
  destruct (max_list_spec x sizes) as [Hmaxin Hmax].
  destruct (min_list_spec x sizes) as [Hminin Hmin].
  assert (md ∈ x :: sizes) as Hmdin.
  { apply std_sort_elem. by eapply list_elem_of_lookup_2. }
  pose proof (elem_le_sum_list _ _ Hpos Hminin) as [Hmin0 _].
  pose proof (elem_le_sum_list _ _ Hpos Hmaxin) as [_ Hmaxsum].
  pose proof (sum_list_between (x :: sizes) (min_list (x :: sizes))
                (max_list (x :: sizes))) as Hbetween.
  destruct Hbetween as [Hlo Hhi]; [intros y Hy; split; auto|].
  clear HC Hss Hs Hk Hall.
  eexists _, _, _, _, _. split; [reflexivity|].
  split_and!; [simpl; lia|exact Hmin0|by apply Hmin|by apply Hmax
              |exact Hmaxsum|exact Hlo|exact Hhi].
Qed.

End values.

(** X3 on [{["a"]: [2^63, 2^63]}]: the total wraps to 0. *)
Lemma X3_values_wrap_witness :
  Forall (λ e : FieldPath * list Z, e.2 ≠ [] ∧ Z.of_nat (length e.2) < 2 ^ 64)
    [(["a"]%string, [9223372036854775808; 9223372036854775808])] ∧
  ∃ p entries' c' s,
    Compute map_to_list
      [(["a"]%string, [9223372036854775808; 9223372036854775808])]
      new_computer = Ok (p, entries', c') ∧
    sample p !! 0%nat = Some s ∧
    value s = [2; -9223372036854775808; -9223372036854775808;
               -9223372036854775808; 0].
Proof.
  assert (Forall (λ e : FieldPath * list Z,
                    e.2 ≠ [] ∧ Z.of_nat (length e.2) < 2 ^ 64)
            [(["a"]%string, [9223372036854775808; 9223372036854775808])])
    as H.
  { constructor; [|constructor]. split; [done|]. vm_compute. reflexivity. }
  split; [exact H|].
  destruct (X3_values_wrap map_to_list _ H) as (p & e' & c' & HC & Hv).
  destruct (Hv 0%nat _ _ eq_refl) as (s & md & Hs & Hmd & Hval).
  exists p, e', c', s. split; [exact HC|]. split; [exact Hs|].
  rewrite Hval. injection Hmd as <-. reflexivity.
Defined.

(** X4 on [{["a"]: [10, 30, 20]}]. *)
Lemma X4_values_ordered_witness :
  Forall (λ e : FieldPath * list Z, e.2 ≠ [] ∧ fits_int64 e.2)
    [(["a"]%string, [10; 30; 20])] ∧
  ∃ p entries' c',
    Compute map_to_list [(["a"]%string, [10; 30; 20])] new_computer =
      Ok (p, entries', c') ∧
    Forall (λ s, ∃ count max_size min_size median_size total_size,
                 value s = [count; max_size; min_size; median_size;
                            total_size] ∧
                 1 ≤ count ∧
                 0 ≤ min_size ∧ min_size ≤ median_size ∧
                 median_size ≤ max_size ∧ max_size ≤ total_size ∧
                 count * min_size ≤ total_size ∧
                 total_size ≤ count * max_size) (sample p).
Proof.
  assert (Forall (λ e : FieldPath * list Z, e.2 ≠ [] ∧ fits_int64 e.2)
            [(["a"]%string, [10; 30; 20])]) as H by solve_fits.
  split; [exact H|].
  exact (X4_values_ordered map_to_list _ H).
Defined.

(** * The location and function records *)

Section location_table.

Implicit Types (c : PprofProfileComputer) (s : string) (l seen : list string).

Lemma locations_dom_new : locations_dom [] new_computer.
Proof.
  split_and!; [constructor|done|]. intros s. simpl. rewrite lookup_empty.
  split; [by intros [? ?]|by intros ?%elem_of_nil].
Qed.

Lemma InternLocation_locations_dom seen s c :
  locations_dom seen c →
  locations_dom (first_seen_step seen s) (InternLocation s c).2.
Proof.
  intros (Hnd & Hsize & Hdom). unfold InternLocation, first_seen_step.
  destruct (locations_ c !! s) as [i|] eqn:Hs; simpl.
  - rewrite decide_True by (apply Hdom; eauto). by split_and!.
  - assert (s ∉ seen) as Hnotin.
    { intros Hin%Hdom. rewrite Hs in Hin. by destruct Hin. }
    rewrite decide_False by done. split_and!; simpl.
    + apply NoDup_app. split_and!; [done| |apply NoDup_singleton].
      by intros x Hx ->%list_elem_of_singleton.
    + rewrite map_size_insert_None by done. rewrite length_app. simpl. lia.
    + intros t. rewrite elem_of_app, list_elem_of_singleton.
      destruct (decide (s = t)) as [->|Hne].
      * rewrite lookup_insert_eq. split; eauto.
      * rewrite lookup_insert_ne by done. rewrite Hdom.
        split; [by left|]. by intros [?|?].
Qed.

Lemma InternLocations_locations_dom l seen c :
  locations_dom seen c →
  locations_dom (first_seen seen l) (InternLocations l c).2.
Proof.
  revert seen c. induction l as [|s l IH]; intros seen c Hdom; [done|].
  simpl. pose proof (InternLocation_locations_dom seen s c Hdom) as H1.
  destruct (InternLocation s c) as [i c1].
  specialize (IH _ c1 H1).
  destruct (InternLocations l c1) as [ids c2]. exact IH.
Qed.

Lemma locations_dom_after_prologue : locations_dom [] after_prologue.
Proof.
  unfold locations_dom. rewrite after_prologue_locations.
  exact locations_dom_new.
Qed.

Lemma locations_inv_after_prologue : locations_inv [] after_prologue.
Proof.
  unfold locations_inv. rewrite after_prologue_locations.
  exact locations_inv_new.
Qed.

End location_table.

Section records.

Variable GetIterator : gmap string Z → list (string * Z).
Hypothesis GetIterator_entries : ∀ m, GetIterator m ≡ₚ map_to_list m.

Lemma records_paired (its : list (string * Z)) (ids : list Z) :
  length ids = length its →
  Forall2 (λ l f, loc_id l = fn_id f ∧
                  line l = [ {| function_id := fn_id f |} ])
    (map location_record its) (zip_with function_record its ids).
Proof.
  revert ids. induction its as [|kv its IH]; intros [|i ids] Hlen;
    simpl in *; try done; constructor; [done|]. apply IH. lia.
Qed.

(** X5: the profile has one location record and one function record for
    every distinct field name of the sample set, and no other: the field
    names of the records are the distinct names, each once; the records are
    paired by position, the location and its function carry the same id, and
    the location has a single line, which points to that function. This
    holds for every order in which the hash map is walked. *)
Theorem X5_location_function_pairs (entries : list (FieldPath * list Z)) :
  Forall (λ e, e.2 ≠ []) entries →
  ∃ p entries' c',
    Compute GetIterator entries new_computer = Ok (p, entries', c') ∧
    (GetIterator (locations_ c')).*1 ≡ₚ
      first_seen [] (interned_names entries) ∧
    location p = map location_record (GetIterator (locations_ c')) ∧
    length (location p) = length (first_seen [] (interned_names entries)) ∧
    length (function p) = length (first_seen [] (interned_names entries)) ∧
    Forall2 (λ l f, loc_id l = fn_id f ∧
                    line l = [ {| function_id := fn_id f |} ])
      (location p) (function p).
Proof.
  intros Hall.
  destruct (Compute_new_computer GetIterator entries Hall)
    as (ss & HC & _).
  eexists _, _, _. split; [exact HC|]. cbn [location function].
  rewrite InternStrings_locations.
  set (c2 := (InternLocations (interned_names entries) after_prologue).2).
  set (its := GetIterator (locations_ c2)).
  pose proof (InternLocations_locations_dom (interned_names entries) []
                after_prologue locations_dom_after_prologue)
    as (Hnd & Hsize & Hdom).
  fold c2 in Hsize, Hdom.
  assert (length its = length (first_seen [] (interned_names entries)))
    as Hlen.
  { unfold its. by rewrite (GetIterator_length GetIterator GetIterator_entries). }
  split_and!.
  - apply NoDup_Permutation; [|done|].
    + apply (GetIterator_NoDup_keys GetIterator GetIterator_entries).
    + intros x. rewrite <-Hdom. split.
      * intros ([k v] & -> & Hin)%list_elem_of_fmap.
        apply (GetIterator_elem GetIterator GetIterator_entries) in Hin.
        simpl. eauto.
      * intros [v Hv].
        apply (GetIterator_elem GetIterator GetIterator_entries) in Hv.
        apply list_elem_of_fmap. exists (x, v). split; [reflexivity|exact Hv].
  - done.
  - by rewrite length_map.
  - rewrite length_zip_with, InternStrings_length, length_fmap. lia.
  - apply records_paired. by rewrite InternStrings_length, length_fmap.
Qed.

(** The ids stored in the table after the loop over the entries. *)
Lemma Compute_new_location_ids (entries : list (FieldPath * list Z)) :
  Z.of_nat (length (interned_names entries)) ≤ INT_MAX →
  let c2 := (InternLocations (interned_names entries) after_prologue).2 in
  let n := Z.of_nat (length (first_seen [] (interned_names entries))) in
  (GetIterator (locations_ c2)).*2 ≡ₚ seqZ 1 n ∧
  (∀ name i, locations_ c2 !! name = Some i →
             1 ≤ i ≤ n ∧ i ∈ (GetIterator (locations_ c2)).*2) ∧
  (∀ (k : nat) name,
     first_seen [] (interned_names entries) !! k = Some name →
     (name, Z.of_nat k + 1) ∈ GetIterator (locations_ c2)).
Proof.
  intros Hlen c2 n.
  pose proof (InternLocations_locations_inv (interned_names entries) []
                after_prologue locations_inv_after_prologue)
    as (Hnd & Hsize & Hinv); [simpl; lia|].
  fold c2 in Hsize, Hinv.
  set (its := GetIterator (locations_ c2)).
  assert (∀ name i, locations_ c2 !! name = Some i →
                    1 ≤ i ≤ n ∧ i ∈ its.*2) as Hin.
  { intros name i Hi. apply Hinv in Hi as Hi'. destruct Hi' as [Hi1 Hlk].
    apply lookup_lt_Some in Hlk. split; [unfold n; lia|].
    apply list_elem_of_fmap. exists (name, i). split; [done|].
    by apply (GetIterator_elem GetIterator GetIterator_entries). }
  split_and!; [|exact Hin|].
  - apply NoDup_Permutation; [|apply NoDup_seqZ|].
    + apply NoDup_alt. intros i j x Hi Hj.
      apply list_lookup_fmap_Some in Hi as ([s1 x1] & -> & Hi).
      apply list_lookup_fmap_Some in Hj as ([s2 x2] & Hx & Hj).
      simpl in Hx. subst x2.
      assert (locations_ c2 !! s1 = Some x1) as H1.
      { apply (GetIterator_elem GetIterator GetIterator_entries).
        by eapply list_elem_of_lookup_2. }
      assert (locations_ c2 !! s2 = Some x1) as H2.
      { apply (GetIterator_elem GetIterator GetIterator_entries).
        by eapply list_elem_of_lookup_2. }
      apply Hinv in H1 as [_ H1]. apply Hinv in H2 as [_ H2].
      assert (s1 = s2) as -> by congruence.
      apply (NoDup_lookup its.*1 i j s2).
      * apply (GetIterator_NoDup_keys GetIterator GetIterator_entries).
      * apply list_lookup_fmap_Some. exists (s2, x1). by split.
      * apply list_lookup_fmap_Some. exists (s2, x1). by split.
    + intros x. rewrite elem_of_seqZ. split.
      * intros ([s1 x1] & -> & Hx)%list_elem_of_fmap. simpl.
        apply (GetIterator_elem GetIterator GetIterator_entries) in Hx.
        destruct (Hin _ _ Hx) as [? _]. lia.
      * intros Hx.
        destruct (lookup_lt_is_Some_2
                    (first_seen [] (interned_names entries))
                    (Z.to_nat (x - 1))) as [name Hname]; [unfold n in Hx; lia|].
        assert (locations_ c2 !! name = Some x) as Hlk
          by (apply Hinv; split; [lia|done]).
        by destruct (Hin _ _ Hlk).
  - intros k name Hk.
    apply (GetIterator_elem GetIterator GetIterator_entries).
    apply Hinv. split; [lia|].
    by replace (Z.to_nat (Z.of_nat k + 1 - 1)) with k by lia.
Qed.

End records.

Section record_ids.

Variable GetIterator : gmap string Z → list (string * Z).
Hypothesis GetIterator_entries : ∀ m, GetIterator m ≡ₚ map_to_list m.

Lemma location_record_ids (its : list (string * Z)) :
  loc_id <$> map location_record its = static_cast_uint64 <$> its.*2.
Proof. induction its as [|kv its IH]; [done|]. simpl. f_equal. exact IH. Qed.

Lemma function_record_ids (its : list (string * Z)) (ids : list Z) :
  length ids = length its →
  fn_id <$> zip_with function_record its ids = static_cast_uint64 <$> its.*2.
Proof.
  revert ids. induction its as [|kv its IH]; intros [|i ids] Hlen;
    simpl in *; try done. f_equal. apply IH. lia.
Qed.

Lemma static_cast_uint64_ids (vals : list Z) n :
  vals ≡ₚ seqZ 1 n → n ≤ INT_MAX → static_cast_uint64 <$> vals = vals.
Proof.
  intros Hperm Hn.
  assert (Forall (λ x, 0 ≤ x < 2 ^ 64) vals) as Hall.
  { apply Forall_forall. intros x Hx. rewrite Hperm in Hx.
    apply elem_of_seqZ in Hx. unfold INT_MAX in Hn.
    change (2 ^ 31) with 2147483648 in Hn.
    change (2 ^ 64) with 18446744073709551616. lia. }
  clear Hperm. induction Hall as [|x vals Hx Hall IH]; [done|].
  simpl. f_equal; [by apply static_cast_uint64_id|exact IH].
Qed.

Lemma interned_names_elem (entries : list (FieldPath * list Z)) path sizes
    name :
  (path, sizes) ∈ entries → name ∈ path → name ∈ interned_names entries.
Proof.
  intros Hin Hname. induction entries as [|e entries IH].
  - by apply elem_of_nil in Hin.
  - change (interned_names (e :: entries))
      with (reverse e.1 ++ interned_names entries).
    apply elem_of_app. apply elem_of_cons in Hin as [<-|Hin].
    + left. by apply elem_of_reverse.
    + right. by apply IH.
Qed.

(** What the profile of a new computer records about location ids, when
    the ids fit in [int]. *)
Lemma Compute_new_record_ids (entries : list (FieldPath * list Z)) :
  Forall (λ e, e.2 ≠ []) entries →
  Z.of_nat (length (interned_names entries)) ≤ INT_MAX →
  let n := Z.of_nat (length (first_seen [] (interned_names entries))) in
  let c2 := (InternLocations (interned_names entries) after_prologue).2 in
  ∃ p entries' c',
    Compute GetIterator entries new_computer = Ok (p, entries', c') ∧
    location p = map location_record (GetIterator (locations_ c2)) ∧
    loc_id <$> location p = (GetIterator (locations_ c2)).*2 ∧
    fn_id <$> function p = (GetIterator (locations_ c2)).*2 ∧
    Forall2 (λ e s, location_id s = map (location_of c2) (reverse e.1))
      entries (sample p).
Proof.
  intros Hall Hlen n c2.
  destruct (Compute_new_computer GetIterator entries Hall)
    as (ss & HC & Hss).
  eexists _, _, _. split; [exact HC|]. cbn [location function sample].
  fold c2.
  destruct (Compute_new_location_ids GetIterator GetIterator_entries
              entries Hlen) as (Hperm & _ & _).
  fold c2 n in Hperm.
  assert (n ≤ INT_MAX) as Hn.
  { pose proof (first_seen_length [] (interned_names entries)).
    unfold n. simpl in *. lia. }
  split_and!.
  - done.
  - rewrite location_record_ids.
    by apply (static_cast_uint64_ids _ n).
  - rewrite function_record_ids
      by (by rewrite InternStrings_length, length_fmap).
    by apply (static_cast_uint64_ids _ n).
  - eapply Forall2_impl; [exact Hss|]. by intros e s [? _].
Qed.

(** X6: location ids are dense. When the ids fit in [int], the ids of the
    location records of the profile are the numbers 1, ..., n, each once,
    for n the number of distinct field names; so are the ids of the function
    records; and the k-th distinct name, in the order in which the loop over
    the entries meets the names (leaf first within a path), has the record
    with id k, whatever the order in which the hash map is walked: the
    table of the computer maps that name to k, and at the place where the
    location loop visits that name the profile has the location record with
    id k, whose single line points to k, and the function record with id k,
    whose name is (when the string ids fit in [int] as well) the position of
    that very name in the string table. *)
Theorem X6_location_ids_dense (entries : list (FieldPath * list Z)) :
  Forall (λ e, e.2 ≠ []) entries →
  Z.of_nat (length (interned_names entries)) ≤ INT_MAX →
  let n := Z.of_nat (length (first_seen [] (interned_names entries))) in
  ∃ p entries' c',
    Compute GetIterator entries new_computer = Ok (p, entries', c') ∧
    loc_id <$> location p ≡ₚ seqZ 1 n ∧
    fn_id <$> function p ≡ₚ seqZ 1 n ∧
    ∀ (k : nat) name,
      first_seen [] (interned_names entries) !! k = Some name →
      locations_ c' !! name = Some (Z.of_nat k + 1) ∧
      ∃ (j : nat) f,
        GetIterator (locations_ c') !! j = Some (name, Z.of_nat k + 1) ∧
        location p !! j =
          Some {| loc_id := Z.of_nat k + 1;
                  line := [ {| function_id := Z.of_nat k + 1 |} ] |} ∧
        function p !! j = Some f ∧
        fn_id f = Z.of_nat k + 1 ∧
        (Z.of_nat (length (interned_names entries)) ≤ 2 ^ 31 - 8 →
         0 ≤ fn_name f ∧
         string_table p !! Z.to_nat (fn_name f) = Some name).
Proof.
  intros Hall Hlen n.
  destruct (Compute_new_computer GetIterator entries Hall)
    as (ss & HC & _).
  destruct (Compute_new_location_ids GetIterator GetIterator_entries
              entries Hlen) as (Hperm & Hin & Hkth).
  eexists _, _, _. split; [exact HC|]. clear HC.
  cbn [location function string_table].
  rewrite InternStrings_locations.
  set (c2 := (InternLocations (interned_names entries) after_prologue).2)
    in *.
  set (its := GetIterator (locations_ c2)) in *.
  fold n in Hperm, Hin.
  assert (n ≤ INT_MAX) as Hn.
  { pose proof (first_seen_length [] (interned_names entries)).
    unfold n. simpl in *. lia. }
  assert (length (InternStrings its.*1 c2).1 = length its) as Hids
    by (by rewrite InternStrings_length, length_fmap).
  split_and!.
  - rewrite location_record_ids.
    by rewrite (static_cast_uint64_ids _ n Hperm Hn).
  - rewrite function_record_ids by exact Hids.
    by rewrite (static_cast_uint64_ids _ n Hperm Hn).
  - intros k name Hk.
    pose proof (Hkth k name Hk) as Hmem.
    assert (locations_ c2 !! name = Some (Z.of_nat k + 1)) as Hlk
      by (by apply (GetIterator_elem GetIterator GetIterator_entries)).
    split; [exact Hlk|].
    apply list_elem_of_lookup_1 in Hmem as [j Hj].
    destruct (lookup_lt_is_Some_2 (InternStrings its.*1 c2).1 j)
      as [i Hi]; [rewrite Hids; by eapply lookup_lt_Some|].
    assert (static_cast_uint64 (Z.of_nat k + 1) = Z.of_nat k + 1) as Hcast.
    { apply static_cast_uint64_id. destruct (Hin _ _ Hlk) as [Hr _].
      unfold INT_MAX in Hn. change (2 ^ 31) with 2147483648 in Hn.
      change (2 ^ 64) with 18446744073709551616. lia. }
    exists j, (function_record (name, Z.of_nat k + 1) i).
    split_and!.
    + exact Hj.
    + change (map location_record its) with (location_record <$> its).
      apply list_lookup_fmap_Some. exists (name, Z.of_nat k + 1).
      split; [|exact Hj]. unfold location_record. simpl. by rewrite Hcast.
    + apply lookup_zip_with_Some.
      exists (name, Z.of_nat k + 1), i. by split_and!.
    + exact Hcast.
    + intros Hlen8.
      assert (8 + Z.of_nat (length its.*1) ≤ 2 ^ 31) as Hroom.
      { rewrite length_fmap. unfold its.
        rewrite (GetIterator_length GetIterator GetIterator_entries).
        pose proof (InternLocations_size (interned_names entries)
                      after_prologue) as Hsize.
        fold c2 in Hsize.
        rewrite after_prologue_locations, map_size_empty in Hsize.
        change (2 ^ 31) with 2147483648 in *. lia. }
      pose proof (function_names_resolve (interned_names entries) its.*1
                    Hroom) as Hres.
      fold c2 in Hres. cbv zeta in Hres.
      assert (its.*1 !! j = Some name) as Hname.
      { apply list_lookup_fmap_Some. exists (name, Z.of_nat k + 1).
        by split. }
      destruct (Forall2_lookup_l _ _ _ _ _ Hres Hname) as (i' & Hi' & Hr).
      rewrite Hi in Hi'. injection Hi' as <-. exact Hr.
Qed.

(** X7: no sample points to a missing location. When the ids fit in [int],
    every id on the location stack of every sample is non-zero and is the id
    of a location record of the profile, and no two location records share
    an id. *)
Theorem X7_stack_ids_resolve (entries : list (FieldPath * list Z)) :
  Forall (λ e, e.2 ≠ []) entries →
  Z.of_nat (length (interned_names entries)) ≤ INT_MAX →
  ∃ p entries' c',
    Compute GetIterator entries new_computer = Ok (p, entries', c') ∧
    NoDup (loc_id <$> location p) ∧
    Forall (λ s, Forall (λ id, id ≠ 0 ∧ id ∈ loc_id <$> location p)
                   (location_id s)) (sample p).
Proof.
  intros Hall Hlen.
  destruct (Compute_new_record_ids entries Hall Hlen)
    as (p & e' & c' & HC & _ & Hlids & _ & Hss).
  destruct (Compute_new_location_ids GetIterator GetIterator_entries
              entries Hlen) as (Hperm & Hin & _).
  exists p, e', c'. split; [exact HC|]. rewrite Hlids. split.
  - rewrite Hperm. apply NoDup_seqZ.
  - apply Forall_lookup. intros k s Hs.
    destruct (Forall2_lookup_r _ _ _ _ _ Hss Hs) as ([path sizes] & Hk & Hloc).
    simpl in Hloc. rewrite Hloc. apply Forall_forall. intros id Hid.
    apply list_elem_of_In, in_map_iff in Hid as (name & <- & Hname).
    apply list_elem_of_In in Hname.
    apply (proj1 (elem_of_reverse _ _)) in Hname.
    destruct (InternLocations_recorded (interned_names entries)
                after_prologue) as [_ Hrec].
    assert (name ∈ interned_names entries) as [j Hj]%list_elem_of_lookup_1.
    { apply (interned_names_elem entries path sizes); [|done].
      by eapply list_elem_of_lookup_2. }
    destruct (Forall2_lookup_l _ _ _ _ _ Hrec Hj) as (i & _ & Hi).
    simpl in Hi. unfold location_of. rewrite Hi. simpl.
    destruct (Hin _ _ Hi) as [? ?]. split; [lia|done].
Qed.

End record_ids.

Lemma two_paths_nonempty :
  Forall (λ e : FieldPath * list Z, e.2 ≠ [])
    [(["x"]%string, [1]); (["y"; "x"]%string, [2; 3])].
Proof. solve_fits. Defined.

Lemma two_paths_names_fit :
  Z.of_nat (length (interned_names
                      [(["x"]%string, [1]); (["y"; "x"]%string, [2; 3])]))
    ≤ INT_MAX.
Proof. vm_compute. discriminate. Defined.

(** X5 on the paths [["x"]] and [["y","x"]]: two records of each kind. *)
Lemma X5_location_function_pairs_witness :
  ∃ p entries' c',
    Compute map_to_list [(["x"]%string, [1]); (["y"; "x"]%string, [2; 3])]
      new_computer = Ok (p, entries', c') ∧
    length (location p) = 2%nat ∧ length (function p) = 2%nat.
Proof.
  destruct (X5_location_function_pairs map_to_list map_to_list_entries
              _ two_paths_nonempty)
    as (p & e' & c' & HC & _ & _ & Hl & Hf & _).
  exists p, e', c'. exact (conj HC (conj Hl Hf)).
Defined.

(** X6 on the same paths: the ids are 1 and 2, and ["x"], met first, has
    id 1. *)
Lemma X6_location_ids_dense_witness :
  ∃ p entries' c',
    Compute map_to_list [(["x"]%string, [1]); (["y"; "x"]%string, [2; 3])]
      new_computer = Ok (p, entries', c') ∧
    loc_id <$> location p ≡ₚ [1; 2] ∧
    locations_ c' !! "x"%string = Some 1.
Proof.
  destruct (X6_location_ids_dense map_to_list map_to_list_entries
              _ two_paths_nonempty two_paths_names_fit)
    as (p & e' & c' & HC & Hl & _ & Hk).
  exists p, e', c'.
  exact (conj HC (conj Hl (proj1 (Hk 0%nat "x"%string eq_refl)))).
Defined.

(** X7 on the same paths. *)
Lemma X7_stack_ids_resolve_witness :
  ∃ p entries' c',
    Compute map_to_list [(["x"]%string, [1]); (["y"; "x"]%string, [2; 3])]
      new_computer = Ok (p, entries', c') ∧
    Forall (λ s, Forall (λ id, id ≠ 0 ∧ id ∈ loc_id <$> location p)
                   (location_id s)) (sample p).
Proof.
  destruct (X7_stack_ids_resolve map_to_list map_to_list_entries
              _ two_paths_nonempty two_paths_names_fit)
    as (p & e' & c' & HC & _ & Hs).
  exists p, e', c'. exact (conj HC Hs).
Defined.

(** * The string table, and a computer used twice *)

Section tables.

Variable GetIterator : gmap string Z → list (string * Z).
Hypothesis GetIterator_entries : ∀ m, GetIterator m ≡ₚ map_to_list m.

Lemma GetIterator_keys (entries : list (FieldPath * list Z)) x :
  x ∈ (GetIterator
         (locations_
            (InternLocations (interned_names entries) after_prologue).2)).*1
  ↔ x ∈ interned_names entries.
Proof.
  pose proof (InternLocations_locations_dom (interned_names entries) []
                after_prologue locations_dom_after_prologue)
    as (_ & _ & Hdom).
  assert (x ∈ first_seen [] (interned_names entries)
          ↔ x ∈ interned_names entries) as Hfs.
  { rewrite first_seen_elem.
    split; [intros [?%elem_of_nil|?]; done|by right]. }
  rewrite <-Hfs, <-Hdom. split.
  - intros ([k v] & -> & Hin)%list_elem_of_fmap.
    apply (GetIterator_elem GetIterator GetIterator_entries) in Hin.
    simpl. eauto.
  - intros [v Hv].
    apply (GetIterator_elem GetIterator GetIterator_entries) in Hv.
    apply list_elem_of_fmap. by exists (x, v).
Qed.

(** X8: the string table holds the empty string, the seven texts of the
    sample types and the field names of the sample set, each exactly once,
    and nothing else; its first eight entries are always [""], ["protos"],
    ["count"], ["max_size"], ["bytes"], ["min_size"], ["median"],
    ["total_size"], so a field whose name is one of these texts shares the
    entry instead of adding a second one. *)
Theorem X8_string_table_content (entries : list (FieldPath * list Z)) :
  Forall (λ e, e.2 ≠ []) entries →
  ∃ p entries' c',
    Compute GetIterator entries new_computer = Ok (p, entries', c') ∧
    NoDup (string_table p) ∧
    take 8 (string_table p) =
      [""; "protos"; "count"; "max_size"; "bytes"; "min_size"; "median";
       "total_size"]%string ∧
    ∀ s, s ∈ string_table p ↔
         s ∈ prologue_texts ∨ s ∈ interned_names entries.
Proof.
  intros Hall.
  destruct (Compute_new_computer GetIterator entries Hall)
    as (ss & HC & _).
  eexists _, _, _. split; [exact HC|]. cbn [string_table].
  rewrite final_strings. split_and!.
  - apply first_seen_NoDup. constructor.
  - rewrite first_seen_app.
    destruct (first_seen_prefix (first_seen [] prologue_texts)
                (GetIterator
                   (locations_
                      (InternLocations (interned_names entries)
                         after_prologue).2)).*1) as [rest ->].
    reflexivity.
  - clear HC. intros s.
    rewrite first_seen_elem, elem_of_app, GetIterator_keys.
    split; [intros [?%elem_of_nil|?]; [done|done]|by right].
Qed.

(** On a computer whose table starts with the eight texts of a first run,
    the head of [Compute] finds every text and changes nothing. *)
Lemma prologue_again (c : PprofProfileComputer) :
  strings_inv c →
  strings_ after_prologue `prefix_of` strings_ c →
  InternString "" c = (0, c) ∧
  add_sample_types sample_type_decls c =
    ([ {| vt_type := 1; vt_unit := 2 |}; {| vt_type := 3; vt_unit := 4 |};
       {| vt_type := 5; vt_unit := 4 |}; {| vt_type := 6; vt_unit := 4 |};
       {| vt_type := 7; vt_unit := 4 |} ], c).
Proof.
  intros [_ Hinv] Hpre.
  assert (∀ (k : nat) s, strings_ after_prologue !! k = Some s →
                         InternString s c = (Z.of_nat k, c)) as Hknown.
  { intros k s Hk. apply InternString_known, Hinv. split; [lia|].
    rewrite Nat2Z.id. by eapply prefix_lookup_Some. }
  split; [exact (Hknown 0%nat _ eq_refl)|].
  unfold sample_type_decls, add_sample_types, add_sample_type.
  rewrite (Hknown 1%nat "protos"%string eq_refl). cbv beta iota zeta.
  rewrite (Hknown 2%nat "count"%string eq_refl). cbv beta iota zeta.
  rewrite (Hknown 3%nat "max_size"%string eq_refl). cbv beta iota zeta.
  rewrite (Hknown 4%nat "bytes"%string eq_refl). cbv beta iota zeta.
  rewrite (Hknown 5%nat "min_size"%string eq_refl). cbv beta iota zeta.
  rewrite (Hknown 4%nat "bytes"%string eq_refl). cbv beta iota zeta.
  rewrite (Hknown 6%nat "median"%string eq_refl). cbv beta iota zeta.
  rewrite (Hknown 4%nat "bytes"%string eq_refl). cbv beta iota zeta.
  rewrite (Hknown 7%nat "total_size"%string eq_refl). cbv beta iota zeta.
  rewrite (Hknown 4%nat "bytes"%string eq_refl). cbv beta iota zeta.
  reflexivity.
Qed.

(** X9: the two tables are members of the computer and [Compute] never
    clears them, so a computer that is used for a second sample set carries
    the first run over. When the string ids of the first run fit in [int],
    the second run passes the check on the empty string, declares the same
    sample types with the same ids, extends the string table of the first
    profile (which is a prefix of the second), and emits every location
    record of the first profile again, also for field names that the second
    sample set does not contain. *)
Theorem X9_computer_reused (entries1 entries2 : list (FieldPath * list Z)) :
  Forall (λ e, e.2 ≠ []) entries1 →
  Forall (λ e, e.2 ≠ []) entries2 →
  Z.of_nat (length (interned_names entries1)) ≤ 2 ^ 31 - 8 →
  ∃ p1 entries1' c1 p2 entries2' c2,
    Compute GetIterator entries1 new_computer = Ok (p1, entries1', c1) ∧
    Compute GetIterator entries2 c1 = Ok (p2, entries2', c2) ∧
    sample_type p2 = sample_type p1 ∧
    string_table p1 `prefix_of` string_table p2 ∧
    (∀ l, l ∈ location p1 → l ∈ location p2).
Proof.
  intros Hall1 Hall2 Hlen.
  destruct (Compute_new_computer GetIterator entries1 Hall1)
    as (ss1 & HC1 & _).
  eexists _, _, _. 
  set (c2a := (InternLocations (interned_names entries1) after_prologue).2)
    in *.
  set (its1 := GetIterator (locations_ c2a)) in *.
  set (c1 := (InternStrings its1.*1 c2a).2) in *.
  assert (strings_inv c1 ∧ strings_ after_prologue `prefix_of` strings_ c1)
    as [Hinv1 Hpre1].
  { pose proof (InternStrings_strings_inv its1.*1 c2a
                  (after_locations_strings_inv (interned_names entries1)))
      as H.
    unfold c1. destruct (InternStrings its1.*1 c2a) as [ids c'].
    destruct (InternLocations_strings (interned_names entries1)
                after_prologue) as [Hs _].
    fold c2a in Hs.
    destruct H as (Hinv & Heq & _).
    - rewrite Hs, after_prologue_strings, length_fmap. unfold its1.
      rewrite (GetIterator_length GetIterator GetIterator_entries).
      pose proof (InternLocations_size (interned_names entries1)
                    after_prologue) as Hsize.
      fold c2a in Hsize.
      rewrite after_prologue_locations, map_size_empty in Hsize.
      change (2 ^ 31) with 2147483648 in *. simpl. lia.
    - split; [exact Hinv|]. simpl. rewrite Heq, Hs. apply first_seen_prefix. }
  destruct (prologue_again c1 Hinv1 Hpre1) as [Hid Hty].
  destruct (sample_loop_nonempty entries2 c1 Hall2) as (ss2 & Hloop & _).
  set (c2b := (InternLocations (interned_names entries2) c1).2) in *.
  assert (Compute GetIterator entries2 c1 =
            Ok ({| sample_type :=
                     [ {| vt_type := 1; vt_unit := 2 |};
                       {| vt_type := 3; vt_unit := 4 |};
                       {| vt_type := 5; vt_unit := 4 |};
                       {| vt_type := 6; vt_unit := 4 |};
                       {| vt_type := 7; vt_unit := 4 |} ];
                   sample := ss2;
                   location :=
                     map location_record (GetIterator (locations_ c2b));
                   function :=
                     zip_with function_record (GetIterator (locations_ c2b))
                       (InternStrings (GetIterator (locations_ c2b)).*1 c2b).1;
                   string_table :=
                     strings_
                       (InternStrings (GetIterator (locations_ c2b)).*1 c2b).2
                |},
                map (λ e, (e.1, std_sort e.2)) entries2,
                (InternStrings (GetIterator (locations_ c2b)).*1 c2b).2))
    as HC2.
  { unfold Compute. rewrite Hid.
    rewrite bool_decide_eq_true_2 by reflexivity. cbn [PERFETTO_CHECK obind].
    rewrite Hty, Hloop. cbn [obind]. by rewrite location_loop_eq. }
  eexists _, _, _. split; [exact HC1|]. split; [exact HC2|].
  cbn [sample_type string_table location]. split_and!.
  - reflexivity.
  - fold c1.
    pose proof (strings_inv_dom c1 Hinv1) as Hdom1.
    assert (strings_dom c2b) as Hdom2.
    { destruct (InternLocations_strings (interned_names entries2) c1)
        as [H1 H2].
      by eapply strings_dom_same. }
    destruct (InternStrings_strings_dom
                (GetIterator (locations_ c2b)).*1 c2b Hdom2) as [_ ->].
    destruct (InternLocations_strings (interned_names entries2) c1)
      as [Hs _].
    fold c2b in Hs. rewrite Hs. apply first_seen_prefix.
  - intros l Hl.
    change (map location_record ?x) with (location_record <$> x) in *.
    apply list_elem_of_fmap in Hl as ([k v] & -> & Hkv).
    apply list_elem_of_fmap_2.
    apply (GetIterator_elem GetIterator GetIterator_entries).
    apply (GetIterator_elem GetIterator GetIterator_entries) in Hkv.
    destruct (InternLocations_recorded (interned_names entries2) c1)
      as [Hsub _].
    fold c2b in Hsub. eapply lookup_weaken; [|exact Hsub].
    unfold c1. by rewrite InternStrings_locations.
Qed.

End tables.

(** X8 on a field that is itself called ["bytes"]. *)
Lemma X8_string_table_content_witness :
  ∃ p entries' c',
    Compute map_to_list [(["bytes"; "x"]%string, [7])] new_computer =
      Ok (p, entries', c') ∧
    NoDup (string_table p) ∧
    ("bytes"%string ∈ string_table p ∧ "x"%string ∈ string_table p).
Proof.
  assert (Forall (λ e : FieldPath * list Z, e.2 ≠ [])
            [(["bytes"; "x"]%string, [7])]) as H by solve_fits.
  destruct (X8_string_table_content map_to_list map_to_list_entries _ H)
    as (p & e' & c' & HC & Hnd & _ & Hin).
  exists p, e', c'. split; [exact HC|]. split; [exact Hnd|].
  split; apply Hin; right; vm_compute.
  - apply list_elem_of_In. right. by left.
  - apply list_elem_of_In. by left.
Defined.

(** X9 on [{["a"]: [1]}] followed by [{["b"]: [2]}]. *)
Lemma X9_computer_reused_witness :
  ∃ p1 entries1' c1 p2 entries2' c2,
    Compute map_to_list [(["a"]%string, [1])] new_computer =
      Ok (p1, entries1', c1) ∧
    Compute map_to_list [(["b"]%string, [2])] c1 = Ok (p2, entries2', c2) ∧
    (∀ l, l ∈ location p1 → l ∈ location p2).
Proof.
  assert (Forall (λ e : FieldPath * list Z, e.2 ≠ [])
            [(["a"]%string, [1])]) as H1 by solve_fits.
  assert (Forall (λ e : FieldPath * list Z, e.2 ≠ [])
            [(["b"]%string, [2])]) as H2 by solve_fits.
  assert (Z.of_nat (length (interned_names [(["a"]%string, [1])]))
            ≤ 2 ^ 31 - 8) as H3 by (vm_compute; discriminate).
  destruct (X9_computer_reused map_to_list map_to_list_entries _ _ H1 H2 H3)
    as (p1 & e1 & c1 & p2 & e2 & c2 & HC1 & HC2 & _ & _ & Hl).
  exists p1, e1, c1, p2, e2, c2. exact (conj HC1 (conj HC2 Hl)).
Defined.

(** * The driver *)

Section driver.

Variable GetIterator : gmap string Z → list (string * Z).
Variables (ScopedFile FileDescriptor Descriptor : Type).
Variable OpenFile : string → OpenFlags → option ScopedFile.
Variable ReadFileDescriptor : ScopedFile → string.
Variable Import : string → option FileDescriptor.
Variable message_type : FileDescriptor → Z → option Descriptor.
Variable SizeProfileComputer_Compute :
  string → Descriptor → list (FieldPath * list Z).
Variable SerializeAsString : Profile → string.

(** On a new computer the assembly either returns or reads an empty
    vector; the check on the empty string cannot fail. *)
Lemma Compute_bytes_new (s : string) (descriptor : Descriptor) :
  (Forall (λ e, e.2 ≠ []) (SizeProfileComputer_Compute s descriptor) ∧
   ∃ p entries' c',
     Compute GetIterator (SizeProfileComputer_Compute s descriptor)
       new_computer = Ok (p, entries', c') ∧
     Compute_bytes GetIterator Descriptor SizeProfileComputer_Compute
       SerializeAsString s descriptor new_computer = Ok (SerializeAsString p)) ∨
  (Exists (λ e, e.2 = []) (SizeProfileComputer_Compute s descriptor) ∧
   Compute_bytes GetIterator Descriptor SizeProfileComputer_Compute
       SerializeAsString s descriptor new_computer = Undefined).
Proof.
  set (entries := SizeProfileComputer_Compute s descriptor).
  destruct (decide (Forall (λ e : FieldPath * list Z, e.2 ≠ []) entries))
    as [Hall|Hnot].
  - left. split; [exact Hall|].
    destruct (Compute_new_computer GetIterator entries Hall)
      as (ss & HC & _).
    eexists _, _, _. split; [exact HC|].
    unfold Compute_bytes. fold entries. rewrite HC. reflexivity.
  - right.
    assert (Exists (λ e : FieldPath * list Z, e.2 = []) entries) as Hex.
    { apply (not_Forall_Exists _) in Hnot.
      eapply Exists_impl; [exact Hnot|]. intros e He. simpl in He.
      destruct (e.2); [done|]. by exfalso; apply He. }
    split; [exact Hex|]. unfold Compute_bytes. fold entries.
    by rewrite (Compute_new_computer_empty GetIterator entries Hex).
Qed.

(** X10: how [Main] ends. It never ends in the fatal failure of a check,
    because the computer it hands to [Compute] is new; an exit status is 0
    or 1; and the status is 0 exactly when there are three arguments, the
    input file opens, the importer returns a file whose first message type
    exists, the output file opens, and the walker returns no entry without
    samples. *)
Theorem X10_Main_status (argv : list string) :
  status (Main GetIterator ScopedFile FileDescriptor Descriptor OpenFile
      ReadFileDescriptor Import message_type SizeProfileComputer_Compute
      SerializeAsString argv) ≠ Fatal ∧
  (∀ z, status (Main GetIterator ScopedFile FileDescriptor Descriptor OpenFile
      ReadFileDescriptor Import message_type SizeProfileComputer_Compute
      SerializeAsString argv) = Ok z → z = 0 ∨ z = 1) ∧
  (status (Main GetIterator ScopedFile FileDescriptor Descriptor OpenFile
      ReadFileDescriptor Import message_type SizeProfileComputer_Compute
      SerializeAsString argv) = Ok 0 ↔
   ∃ argv0 input_path output_path proto_fd parsed_file descriptor output_fd,
     argv = [argv0; input_path; output_path] ∧
     OpenFile input_path O_RDONLY = Some proto_fd ∧
     Import "protos/perfetto/trace/trace.proto" = Some parsed_file ∧
     message_type parsed_file 0 = Some descriptor ∧
     OpenFile output_path O_WRONLY_O_TRUNC_O_CREAT = Some output_fd ∧
     Forall (λ e, e.2 ≠ [])
       (SizeProfileComputer_Compute (ReadFileDescriptor proto_fd)
          descriptor)).
Proof.
  unfold Main. destruct (decide (length argv ≠ 3%nat)) as [Hlen|Hlen].
  { unfold PrintUsage. destruct (argv !! 0%nat); simpl.
    - split_and!; [done|intros z [= <-]; by right|].
      split; [done|]. intros (? & ? & ? & ? & ? & ? & ? & -> & _). done.
    - split_and!; [done|done|].
      split; [done|]. intros (? & ? & ? & ? & ? & ? & ? & -> & _). done. }
  apply dec_stable in Hlen.
  destruct argv as [|argv0 [|input_path [|output_path [|]]]];
    try discriminate Hlen. clear Hlen. simpl.
  destruct (OpenFile input_path O_RDONLY) as [proto_fd|] eqn:Hin; simpl.
  2:{ split_and!; [done|intros z [= <-]; by right|].
      split; [done|]. intros (? & ? & ? & ? & ? & ? & ? & [= <- <- <-] & ? & _).
      congruence. }
  destruct (Import "protos/perfetto/trace/trace.proto")
    as [parsed_file|] eqn:Himp; simpl.
  2:{ split_and!; [done|done|].
      split; [done|].
      intros (? & ? & ? & ? & ? & ? & ? & [= <- <- <-] & ? & ? & _).
      congruence. }
  destruct (message_type parsed_file 0) as [descriptor|] eqn:Hmsg; simpl.
  2:{ split_and!; [done|intros z [= <-]; by right|].
      split; [done|].
      intros (? & ? & ? & ? & ? & ? & ? & [= <- <- <-] & ? & ? & ? & _).
      congruence. }
  destruct (OpenFile output_path O_WRONLY_O_TRUNC_O_CREAT)
    as [output_fd|] eqn:Hout; simpl.
  2:{ split_and!; [done|intros z [= <-]; by right|].
      split; [done|].
      intros (? & ? & ? & ? & ? & ? & ? & [= <- <- <-] & ? & ? & ? & ? & _).
      congruence. }
  destruct (Compute_bytes_new (ReadFileDescriptor proto_fd) descriptor)
    as [(Hall & p & e' & c' & _ & ->)|(Hex & ->)]; simpl.
  - split_and!; [done|intros z [= <-]; by left|].
    split; [|done]. intros _.
    by exists argv0, input_path, output_path, proto_fd, parsed_file,
      descriptor, output_fd.
  - split_and!; [done|done|].
    split; [done|].
    intros (? & ? & ? & fd & pf & d & ? & [= <- <- <-] & H1 & H2 & H3 & _ & Hall).
    assert (fd = proto_fd) as -> by congruence.
    assert (pf = parsed_file) as -> by congruence.
    assert (d = descriptor) as -> by congruence.
    apply Exists_exists in Hex as (e & He & Hempty).
    rewrite Forall_forall in Hall. by destruct (Hall e He).
Qed.

(** X11: what [Main] does to the output file. A run that ends with status
    1 never opens, writes or flushes any file for writing, so it neither
    creates nor truncates the output. A run that ends with status 0 opens
    the input, then opens the output, writes to it once the serialized
    profile that [Compute] assembles on a new computer from the walker's
    result for the bytes read from the input, and flushes it. A run that
    touches the output without ending with status 0 has only opened it:
    the file is created or truncated before [Compute] runs and stays empty
    when [Compute] breaks off. *)
Theorem X11_Main_output (argv : list string) :
  (status (Main GetIterator ScopedFile FileDescriptor Descriptor OpenFile
      ReadFileDescriptor Import message_type SizeProfileComputer_Compute
      SerializeAsString argv) = Ok 1 →
   Forall (λ e, ∀ path, ¬ writes_to path e) (events (Main GetIterator ScopedFile FileDescriptor Descriptor OpenFile
      ReadFileDescriptor Import message_type SizeProfileComputer_Compute
      SerializeAsString argv))) ∧
  (status (Main GetIterator ScopedFile FileDescriptor Descriptor OpenFile
      ReadFileDescriptor Import message_type SizeProfileComputer_Compute
      SerializeAsString argv) = Ok 0 →
   ∃ argv0 input_path output_path proto_fd parsed_file descriptor p
     entries' c',
     argv = [argv0; input_path; output_path] ∧
     OpenFile input_path O_RDONLY = Some proto_fd ∧
     Import "protos/perfetto/trace/trace.proto" = Some parsed_file ∧
     message_type parsed_file 0 = Some descriptor ∧
     Compute GetIterator
       (SizeProfileComputer_Compute (ReadFileDescriptor proto_fd) descriptor)
       new_computer = Ok (p, entries', c') ∧
     events (Main GetIterator ScopedFile FileDescriptor Descriptor OpenFile
      ReadFileDescriptor Import message_type SizeProfileComputer_Compute
      SerializeAsString argv) =
       [Opened input_path O_RDONLY;
        Opened output_path O_WRONLY_O_TRUNC_O_CREAT;
        WriteAll output_path (SerializeAsString p);
        FlushFile output_path]) ∧
  (∀ path, Exists (writes_to path) (events (Main GetIterator ScopedFile FileDescriptor Descriptor OpenFile
      ReadFileDescriptor Import message_type SizeProfileComputer_Compute
      SerializeAsString argv)) →
           status (Main GetIterator ScopedFile FileDescriptor Descriptor OpenFile
      ReadFileDescriptor Import message_type SizeProfileComputer_Compute
      SerializeAsString argv) ≠ Ok 0 →
           status (Main GetIterator ScopedFile FileDescriptor Descriptor OpenFile
      ReadFileDescriptor Import message_type SizeProfileComputer_Compute
      SerializeAsString argv) = Undefined ∧
           ∃ input_path,
             events (Main GetIterator ScopedFile FileDescriptor Descriptor OpenFile
      ReadFileDescriptor Import message_type SizeProfileComputer_Compute
      SerializeAsString argv) =
               [Opened input_path O_RDONLY;
                Opened path O_WRONLY_O_TRUNC_O_CREAT]).
Proof.
  unfold Main. destruct (decide (length argv ≠ 3%nat)) as [Hlen|Hlen].
  { unfold PrintUsage. destruct (argv !! 0%nat); simpl.
    - split_and!; [|done|].
      + no_writes.
      + intros path Hex. apply Exists_cons in Hex as [[]|Hex%Exists_nil].
        done.
    - split_and!; [done|done|].
      intros path Hex%Exists_nil. done. }
  apply dec_stable in Hlen.
  destruct argv as [|argv0 [|input_path [|output_path [|]]]];
    try discriminate Hlen. clear Hlen. simpl.
  destruct (OpenFile input_path O_RDONLY) as [proto_fd|] eqn:Hin; simpl.
  2:{ split_and!; [|done|].
      - no_writes.
      - intros path Hex. apply Exists_cons in Hex as [[]|Hex%Exists_nil].
        done. }
  destruct (Import "protos/perfetto/trace/trace.proto")
    as [parsed_file|] eqn:Himp; simpl.
  2:{ split_and!; [done|done|].
      intros path Hex. apply Exists_cons in Hex as [[]|Hex%Exists_nil].
      done. }
  destruct (message_type parsed_file 0) as [descriptor|] eqn:Hmsg; simpl.
  2:{ split_and!; [|done|].
      - no_writes.
      - intros path Hex. apply Exists_cons in Hex as [[]|Hex].
        apply Exists_cons in Hex as [[]|Hex%Exists_nil]. done. }
  destruct (OpenFile output_path O_WRONLY_O_TRUNC_O_CREAT)
    as [output_fd|] eqn:Hout; simpl.
  2:{ split_and!; [|done|].
      - no_writes.
      - intros path Hex. apply Exists_cons in Hex as [[]|Hex].
        apply Exists_cons in Hex as [[]|Hex%Exists_nil]. done. }
  destruct (Compute_bytes_new (ReadFileDescriptor proto_fd) descriptor)
    as [(Hall & p & e' & c' & HC & ->)|(Hex & ->)]; simpl.
  - split_and!.
    + intros [=].
    + intros _.
      exists argv0, input_path, output_path, proto_fd, parsed_file,
        descriptor, p, e', c'.
      split; [reflexivity|]. split; [assumption|].
      split; [first [assumption|reflexivity]|].
      split; [first [assumption|reflexivity]|].
      split; [exact HC|reflexivity].
    + intros path _ Hne. exfalso. by apply Hne.
  - split_and!; [done|done|].
    intros path Hw _. split; [done|]. exists input_path.
    apply Exists_cons in Hw as [[]|Hw].
    apply Exists_cons in Hw as [Hw|Hw%Exists_nil]; [|done].
    simpl in Hw. by subst path.
Qed.

End driver.

(** X11 on a call without the two paths: status 1 and nothing written. *)
Lemma X11_Main_output_witness :
  status (Main map_to_list unit unit unit (λ _ _, Some tt) (λ _, ""%string)
            (λ _, Some tt) (λ _ _, Some tt)
            (λ _ _, [(["a"]%string, [1])]) (λ _, ""%string)
            ["protoprofile"%string]) = Ok 1 ∧
  Forall (λ e, ∀ path, ¬ writes_to path e)
    (events (Main map_to_list unit unit unit (λ _ _, Some tt)
               (λ _, ""%string) (λ _, Some tt) (λ _ _, Some tt)
               (λ _ _, [(["a"]%string, [1])]) (λ _, ""%string)
               ["protoprofile"%string])).
Proof.
  assert (status (Main map_to_list unit unit unit (λ _ _, Some tt)
                    (λ _, ""%string) (λ _, Some tt) (λ _ _, Some tt)
                    (λ _ _, [(["a"]%string, [1])]) (λ _, ""%string)
                    ["protoprofile"%string]) = Ok 1) as H by reflexivity.
  split; [exact H|].
  exact (proj1 (X11_Main_output map_to_list unit unit unit (λ _ _, Some tt)
                  (λ _, ""%string) (λ _, Some tt) (λ _ _, Some tt)
                  (λ _ _, [(["a"]%string, [1])]) (λ _, ""%string)
                  ["protoprofile"%string]) H).
Defined.

(** * Ids of the string interner stay valid *)

(** X12: interning and looking up round-trip, and ids are stable. After any
    calls of [InternString] on a new computer (with room left in [int]),
    every id that a call returned is an index of [strings_] that holds the
    text of that call, and the lookup table maps the text back to the id;
    both stay so after any further calls, which only append to the table. *)
Theorem X12_intern_string_round_trip (l1 l2 : list string) :
  Z.of_nat (length l1) + Z.of_nat (length l2) ≤ 2 ^ 31 →
  let ids := (InternStrings l1 new_computer).1 in
  let c1 := (InternStrings l1 new_computer).2 in
  let c2 := (InternStrings l2 c1).2 in
  strings_ c1 `prefix_of` strings_ c2 ∧
  Forall2 (λ s i,
             0 ≤ i < Z.of_nat (length (strings_ c1)) ∧
             strings_ c1 !! Z.to_nat i = Some s ∧
             string_to_id_ c1 !! s = Some i ∧
             strings_ c2 !! Z.to_nat i = Some s ∧
             string_to_id_ c2 !! s = Some i) l1 ids.
Proof.
  intros Hlen ids c1 c2.
  pose proof (InternStrings_strings_inv l1 new_computer strings_inv_new)
    as H1.
  unfold ids, c2, c1. clear ids c1 c2.
  destruct (InternStrings l1 new_computer) as [ids c1].
  destruct H1 as (Hinv1 & Hs1 & Hall1); [simpl; lia|]. simpl.
  pose proof (first_seen_length [] l1) as Hfl. simpl in Hfl, Hs1.
  pose proof (InternStrings_strings_inv l2 c1 Hinv1) as H2.
  destruct (InternStrings l2 c1) as [ids2 c2].
  destruct H2 as (Hinv2 & Hs2 & _); [rewrite Hs1; lia|]. simpl.
  assert (strings_ c1 `prefix_of` strings_ c2) as Hpre
    by (rewrite Hs2; apply first_seen_prefix).
  split; [exact Hpre|].
  eapply Forall2_impl; [exact Hall1|]. intros s i [Hi Hlk]. simpl in *.
  pose proof (lookup_lt_Some _ _ _ Hlk) as Hlt.
  pose proof (prefix_lookup_Some _ _ _ _ Hlk Hpre) as Hlk2.
  split_and!; [lia|lia|exact Hlk| |exact Hlk2|].
  - apply Hinv1. by split.
  - apply Hinv2. by split.
Qed.

(** X12 on the texts ["a"], ["b"], ["a"] followed by ["c"], ["a"]. *)
Lemma X12_intern_string_round_trip_witness :
  Z.of_nat (length (["a"; "b"; "a"]%string : list string)) +
    Z.of_nat (length (["c"; "a"]%string : list string)) ≤ 2 ^ 31 ∧
  strings_ (InternStrings ["a"; "b"; "a"]%string new_computer).2
    `prefix_of`
  strings_ (InternStrings ["c"; "a"]%string
              (InternStrings ["a"; "b"; "a"]%string new_computer).2).2.
Proof.
  assert (Z.of_nat (length (["a"; "b"; "a"]%string : list string)) +
            Z.of_nat (length (["c"; "a"]%string : list string)) ≤ 2 ^ 31)
    as H by (vm_compute; discriminate).
  split; [exact H|].
  exact (proj1 (X12_intern_string_round_trip _ _ H)).
Defined.

(** X1 on a computer whose table starts with another text: the run fails
    fatally, whatever the sample set. *)
Lemma X1_Compute_outcome_witness :
  Compute map_to_list [(["a"]%string, [1])]
    {| strings_ := ["x"%string];
       string_to_id_ := {[ "x"%string := 0 ]};
       locations_ := ∅ |} = Fatal.
Proof.
  apply (proj1 (X1_Compute_outcome map_to_list _ _)).
  vm_compute. discriminate.
Defined.

(** X10 on a call with both paths, where every collaborator succeeds. *)
Lemma X10_Main_status_witness :
  status (Main map_to_list unit unit unit (λ _ _, Some tt) (λ _, ""%string)
            (λ _, Some tt) (λ _ _, Some tt)
            (λ _ _, [(["a"]%string, [1])]) (λ _, ""%string)
            ["protoprofile"; "trace.pb"; "out.pprof"]%string) = Ok 0.
Proof.
  apply (proj2 (proj2 (X10_Main_status map_to_list unit unit unit
                         (λ _ _, Some tt) (λ _, ""%string) (λ _, Some tt)
                         (λ _ _, Some tt) (λ _ _, [(["a"]%string, [1])])
                         (λ _, ""%string) _))).
  exists "protoprofile"%string, "trace.pb"%string, "out.pprof"%string,
    tt, tt, tt, tt.
  split; [reflexivity|]. split; [reflexivity|]. split; [reflexivity|].
  split; [reflexivity|]. split; [reflexivity|].
  constructor; [discriminate|constructor].
Defined.
